(** * Slidecast: timeline remapping over cut intervals

    A shallow embedding of the pure core of [slidecast/main.py]:
    [normalize_cuts], [total_cut_before], [adjust_timeline] and
    [cuts_to_fragments], together with the cut and timeline handling of
    [main], the image list of [build_video_script], and the readers
    [parse_time_label] and [parse_timeline].

    Numbers.  Python floats are modelled as exact rationals ([Q]); rounding,
    infinities and NaN are outside that model.  Where the rounding of an
    addition decides a result, the code is also given on binary64 floats
    (module [F64]).  The literals [1e-9], [1e-6] and [-1e9] of the source
    are the rationals [1/10^9], [1/10^6] and [-10^9].  Page numbers are
    Python integers ([Z]); an optional page is [option Z]. *)

From Stdlib Require Import QArith Qabs ZArith List Bool Lqa Lia.
From Stdlib Require Import Sorting.Sorted Sorting.Permutation String Ascii.
From Stdlib Require Import PrimFloat.
Import ListNotations.
Open Scope Q_scope.

(** ** Comparisons and Python's [min] / [max] *)

Module Num.

Definition ltb (a b : Q) : bool :=
  match a ?= b with Lt => true | _ => false end.

Definition leb (a b : Q) : bool :=
  match a ?= b with Gt => false | _ => true end.

(** [max(a, b)] keeps its first argument unless the second is strictly
    greater; [min(a, b)] keeps its first unless the second is strictly
    smaller. *)
Definition pymax (a b : Q) : Q := if ltb a b then b else a.
Definition pymin (a b : Q) : Q := if ltb b a then b else a.

Definition eps9 : Q := 1 # 1000000000.
Definition eps6 : Q := 1 # 1000000.
Definition minus_1e9 : Q := - (1000000000 # 1).

End Num.

Import Num.

(** ** Data model *)

(** A cut (and a kept fragment) is a Python tuple [(start, end)]. *)
Definition Cut : Type := Q * Q.

(** [SlideChange]: time on the original axis and an optional 1-based page. *)
Record SlideChange : Type := mkSlideChange { t : Q; page : option Z }.

(** ** [list.sort]

    Python's sort is stable, so its result is determined by the input and
    the order alone; it is modelled by the stable insertion sort for the
    strict order [lt] (an element is placed before the first element that
    is not strictly smaller). *)
Section Sort.
Context {A : Type} (lt : A -> A -> bool).

Fixpoint insert (x : A) (l : list A) : list A :=
  match l with
  | [] => [x]
  | y :: l' => if lt y x then y :: insert x l' else x :: l
  end.

Definition sort (l : list A) : list A := fold_right insert [] l.
End Sort.

(** Python's tuple comparison: the first components decide unless they are
    equal, then the second components do. *)
Definition tuple_lt (x y : Cut) : bool :=
  if Qeq_bool (fst x) (fst y) then ltb (snd x) (snd y) else ltb (fst x) (fst y).

(** ** [normalize_cuts] *)

(** [[(min(a, b), max(a, b)) for a, b in cuts if max(a, b) > min(a, b)]] *)
Definition segments (cuts : list Cut) : list Cut :=
  map (fun c => (pymin (fst c) (snd c), pymax (fst c) (snd c)))
      (filter (fun c => ltb (pymin (fst c) (snd c)) (pymax (fst c) (snd c))) cuts).

(** One iteration of the merging loop.  [merged] is kept newest first, so
    its head is the source's [merged[-1]]. *)
Definition merge_step (merged : list Cut) (seg : Cut) : list Cut :=
  match merged with
  | [] => [seg]
  | (ls, le) :: earlier =>
      if ltb (le + eps9) (fst seg) then seg :: merged
      else (ls, pymax le (snd seg)) :: earlier
  end.

Definition normalize_cuts (cuts : list Cut) : list Cut :=
  rev (fold_left merge_step (sort tuple_lt (segments cuts)) []).

(** ** [total_cut_before] *)

Definition cut_step (t0 removed : Q) (c : Cut) : Q :=
  let (s, e) := c in
  if leb e t0 then removed + (e - s)
  else if ltb s t0 && ltb t0 e then removed + (t0 - s)
  else removed.

Definition total_cut_before (t0 : Q) (cuts : list Cut) : Q :=
  fold_left (cut_step t0) cuts 0.

(** ** [adjust_timeline] *)

(** [max(0.0, min(audio_orig_len, float(t0)))] *)
Definition clip (audio_orig_len t0 : Q) : Q := pymax 0 (pymin audio_orig_len t0).

(** The snapping loop: the first cut that matches replaces [t0] by its
    start, and the loop breaks. *)
Fixpoint snap (t0 : Q) (cuts : list Cut) : Q :=
  match cuts with
  | [] => t0
  | (s, e) :: rest =>
      if (ltb s t0 && ltb t0 e) || ltb (Qabs (t0 - s)) eps9 then s
      else snap t0 rest
  end.

(** [ch.page if ch.page is not None else -1] *)
Definition page_or_sentinel (p : option Z) : Z :=
  match p with Some k => k | None => (-1)%Z end.

(** The body of the loop over [changes]; [cuts] is already normalized. *)
Definition map_event (cuts : list Cut) (audio_orig_len : Q) (ch : SlideChange)
  : Q * Z :=
  let t0 := snap (clip audio_orig_len (t ch)) cuts in
  let shift := total_cut_before t0 cuts in
  (pymax 0 (t0 - shift), page_or_sentinel (page ch)).

(** One iteration of the strict-monotonicity loop on [(cleaned, last_t)]. *)
Definition clean_step (st : list (Q * Z) * Q) (x : Q * Z) : list (Q * Z) * Q :=
  let (cleaned, last_t) := st in
  if ltb (last_t + eps6) (fst x) then (cleaned ++ [x], fst x) else st.

Definition strict_pass (adjusted : list (Q * Z)) : list (Q * Z) :=
  fst (fold_left clean_step adjusted ([], minus_1e9)).

(** [adjusted.sort(key=lambda x: x[0])] *)
Definition key_lt (x y : Q * Z) : bool := ltb (fst x) (fst y).

Definition adjust_timeline (changes : list SlideChange) (cuts : list Cut)
  (audio_orig_len : Q) : list (Q * Z) :=
  let cuts := normalize_cuts cuts in
  let adjusted := map (map_event cuts audio_orig_len) changes in
  strict_pass (sort key_lt adjusted).

(** ** [cuts_to_fragments] *)

(** The loop over [cuts] on the state [(fragments, start)]; it stops early
    once [start >= audio_orig_len]. *)
Fixpoint fragments_loop (audio_orig_len : Q) (cuts fragments : list Cut)
  (start : Q) : list Cut * Q :=
  match cuts with
  | [] => (fragments, start)
  | (s, e) :: rest =>
      let fragments' :=
        if ltb start s then fragments ++ [(start, s)] else fragments in
      let start' := pymax start e in
      if leb audio_orig_len start' then (fragments', start')
      else fragments_loop audio_orig_len rest fragments' start'
  end.

Definition cuts_to_fragments (cuts : list Cut) (audio_orig_len : Q) : list Cut :=
  let (fragments, start) := fragments_loop audio_orig_len cuts [] 0 in
  if ltb start audio_orig_len then fragments ++ [(start, audio_orig_len)]
  else fragments.

(** ** The cut list of [main] *)

Definition map_cut (skew : Q) (cut : Cut) : Cut := (fst cut + skew, snd cut + skew).

(** Step 3 of [main]: the parsed pairs are normalized, then shifted by
    [--skew] when it is not zero. *)
Definition main_cuts (skew : Q) (parsed : list Cut) : list Cut :=
  let cuts := normalize_cuts parsed in
  if negb (Qeq_bool skew 0) then map (map_cut skew) cuts else cuts.

(** The order of the specification: every cut endpoint is shifted first,
    then the shifted pairs are normalized. *)
Definition spec_skewed_cuts (skew : Q) (parsed : list Cut) : list Cut :=
  normalize_cuts (map (map_cut skew) parsed).

(** * Auxiliary definitions

    Recursive forms of the loops and the predicates of the statements. *)

(** The strict-monotonicity loop as a recursion on the remaining events. *)
Fixpoint strict_from (last_t : Q) (adjusted : list (Q * Z)) : list (Q * Z) :=
  match adjusted with
  | [] => []
  | x :: rest =>
      if ltb (last_t + eps6) (fst x) then x :: strict_from (fst x) rest
      else strict_from last_t rest
  end.

(** Strictly earlier in time. *)
Definition time_lt (x y : Q * Z) : Prop := fst x < fst y.

(** The invariant of a normalized cut list: every interval has
    [start < end], and every start exceeds the previous end by more than
    [1e-9] (so the list is ascending and pairwise disjoint). *)
Fixpoint is_normalized (cuts : list Cut) : bool :=
  match cuts with
  | [] => true
  | (s, e) :: rest =>
      ltb s e
      && match rest with [] => true | (s', _) :: _ => ltb (e + eps9) s' end
      && is_normalized rest
  end.

(** The merging loop as a recursion: [cur] is the source's [merged[-1]],
    the intervals before it are already final. *)
Fixpoint merge_from (cur : Cut) (segs : list Cut) : list Cut :=
  match segs with
  | [] => [cur]
  | seg :: rest =>
      if ltb (snd cur + eps9) (fst seg) then cur :: merge_from seg rest
      else merge_from (fst cur, pymax (snd cur) (snd seg)) rest
  end.

(** A non-empty interval. *)
Definition proper (c : Cut) : Prop := fst c < snd c.

(** Two cut lists with numerically equal endpoints, position by position. *)
Definition same_cuts (l1 l2 : list Cut) : Prop :=
  Forall2 (fun x y => fst x == fst y /\ snd x == snd y) l1 l2.

(** The fragment loop as a recursion on the remaining cuts, from the
    cursor [start]; the early exit leaves no final fragment, because then
    [start >= audio_orig_len]. *)
Fixpoint fragments_from (audio_orig_len start : Q) (cuts : list Cut) : list Cut :=
  match cuts with
  | [] => if ltb start audio_orig_len then [(start, audio_orig_len)] else []
  | (s, e) :: rest =>
      (if ltb start s then [(start, s)] else [])
      ++ (if leb audio_orig_len (pymax start e) then []
          else fragments_from audio_orig_len (pymax start e) rest)
  end.

(** [a] ends no later than [b] starts. *)
Definition before (a b : Cut) : Prop := snd a <= fst b.

(** Two intervals that share no stretch of time. *)
Definition apart (a b : Cut) : Prop := snd a <= fst b \/ snd b <= fst a.

(** The time [x] lies in the interval [c], taken closed on the left and
    open on the right, so that abutting intervals share no point. *)
Definition inside (x : Q) (c : Cut) : Prop := fst c <= x /\ x < snd c.

(** The total length of the intervals of a list. *)
Definition total_duration (cuts : list Cut) : Q :=
  fold_right (fun c acc => (snd c - fst c) + acc) 0 cuts.

(** More than [1e-6] earlier in time. *)
Definition spaced (x y : Q * Z) : Prop := fst x + eps6 < fst y.

(** Not later in time: the order the sort by key leaves between
    neighbours. *)
Definition key_le (x y : Q * Z) : Prop := key_lt y x = false.

(** The interval [o] contains the interval [x]. *)
Definition covers (o x : Cut) : Prop := fst o <= fst x /\ snd x <= snd o.

(** Numerically equal endpoints. *)
Definition same_cut (x y : Cut) : Prop := fst x == fst y /\ snd x == snd y.

(** ** The timeline of [main] *)



(** ** The image list of [build_video_script]

    The function writes the list of images and durations that the video
    tool reads.  [FileLine im] stands for the line [file 'im'] and
    [DurationLine d] for the line [duration d], which the source prints
    with three decimals; the lines are kept in the order written. *)

Inductive ImgLine : Type :=
| FileLine (image : string)
| DurationLine (duration : Q).

(** [l[i]] on a Python list: a negative index counts from the end, and
    [None] stands for [IndexError]. *)
Definition py_index {A : Type} (l : list A) (i : Z) : option A :=
  let n := Z.of_nat (List.length l) in
  if (i <? 0)%Z then
    if (i + n <? 0)%Z then None else nth_error l (Z.to_nat (i + n))
  else nth_error l (Z.to_nat i).

(** [p < 1 or p > len(slide_images)] *)
Definition invalid_page (slide_images : list string) (p : Z) : bool :=
  (p <? 1)%Z || (Z.of_nat (List.length slide_images) <? p)%Z.

(** The lines written before the loop: the first image, shown until the
    first change, when that change is after time zero. *)
Definition first_lines (slide_images : list string) (changes : list (Q * Z))
  : option (list ImgLine) :=
  match changes with
  | [] => Some []
  | (t0, _) :: _ =>
      if ltb 0 t0 then
        match py_index slide_images 0 with
        | None => None
        | Some image => Some [FileLine image; DurationLine t0]
        end
      else Some []
  end.

(** The loop over [enumerate(changes)]: a change with an invalid page is
    skipped; the others write their image, and their duration up to the
    next change when there is one. *)
Fixpoint change_lines (slide_images : list string) (changes : list (Q * Z))
  : option (list ImgLine) :=
  match changes with
  | [] => Some []
  | (t0, p) :: rest =>
      if invalid_page slide_images p then change_lines slide_images rest
      else
        match py_index slide_images (p - 1) with
        | None => None
        | Some image =>
            let lines :=
              match rest with
              | (next_time, _) :: _ =>
                  [FileLine image; DurationLine (pymax 0 (next_time - t0))]
              | [] => [FileLine image]
              end in
            match change_lines slide_images rest with
            | None => None
            | Some more => Some (lines ++ more)
            end
        end
  end.

(** The lines written after the loop: the image of the last change once
    more, when its page is valid. *)
Definition final_lines (slide_images : list string) (changes : list (Q * Z))
  : option (list ImgLine) :=
  match changes with
  | [] => Some []
  | _ :: _ =>
      let final_page := snd (last changes (0, 0%Z)) in
      if (1 <=? final_page)%Z
         && (final_page <=? Z.of_nat (List.length slide_images))%Z
      then
        match py_index slide_images (final_page - 1) with
        | None => None
        | Some image => Some [FileLine image]
        end
      else Some []
  end.

(** The content of the image list file. *)
Definition img_list (slide_images : list string) (changes : list (Q * Z))
  : option (list ImgLine) :=
  match first_lines slide_images changes with
  | None => None
  | Some a =>
      match change_lines slide_images changes with
      | None => None
      | Some b =>
          match final_lines slide_images changes with
          | None => None
          | Some c => Some (a ++ b ++ c)
          end
      end
  end.

(** The sum of the durations of a list of lines. *)
Definition listed_duration (lines : list ImgLine) : Q :=
  fold_right (fun l acc => match l with
                           | DurationLine d => d + acc
                           | FileLine _ => acc
                           end) 0 lines.

(** What a well-formed line is: an image of the list, or a duration that
    is not negative. *)
Definition line_ok (slide_images : list string) (l : ImgLine) : Prop :=
  match l with
  | FileLine image => In image slide_images
  | DurationLine d => 0 <= d
  end.

(** ** [parse_time_label] and [parse_timeline]

    The values that [json.load] returns, and the exceptions the two
    parsers can raise. *)

#[local] Unset Elimination Schemes.
Inductive json : Type :=
| JNull
| JBool (b : bool)
| JInt (n : Z)
| JFloat (q : Q)
| JStr (s : string)
| JList (items : list json)
| JDict (entries : list (string * json)).
#[local] Set Elimination Schemes.

Inductive exn : Type := ValueError | AttributeError | KeyError | TypeError.

Inductive result (A : Type) : Type :=
| Ok (a : A)
| Raise (e : exn).
Arguments Ok {A} a.
Arguments Raise {A} e.

(** [s.split(sep)] for a one-character separator: the pieces between the
    separators, at least one piece. *)
Fixpoint split_on (sep : ascii) (s : string) : list string :=
  match s with
  | EmptyString => [EmptyString]
  | String c rest =>
      if Ascii.eqb c sep then EmptyString :: split_on sep rest
      else
        match split_on sep rest with
        | piece :: pieces => String c piece :: pieces
        | [] => [String c EmptyString]
        end
  end.

Definition colon : ascii := ":"%char.

(** [d[key]] on a dictionary given by its entries. *)
Fixpoint dict_get (entries : list (string * json)) (key : string)
  : option json :=
  match entries with
  | [] => None
  | (k, v) :: rest => if String.eqb k key then Some v else dict_get rest key
  end.

Section Parsers.
(** [float(s)] and [int(s)] on a string: [None] stands for the
    [ValueError] they raise on a string they cannot read. *)
Variable float_of_str : string -> option Q.
Variable int_of_str : string -> option Z.

Definition float_of_piece (s : string) : result Q :=
  match float_of_str s with
  | Some x => Ok x
  | None => Raise ValueError
  end.

(** The string branch of [parse_time_label]. *)
Definition parse_pieces (parts : list string) : result Q :=
  match parts with
  | [p0] => float_of_piece p0
  | [p0; p1] =>
      match float_of_piece p0 with
      | Raise e => Raise e
      | Ok x0 =>
          match float_of_piece p1 with
          | Raise e => Raise e
          | Ok x1 => Ok (x0 * 60 + x1)
          end
      end
  | [p0; p1; p2] =>
      match float_of_piece p0 with
      | Raise e => Raise e
      | Ok x0 =>
          match float_of_piece p1 with
          | Raise e => Raise e
          | Ok x1 =>
              match float_of_piece p2 with
              | Raise e => Raise e
              | Ok x2 => Ok (x0 * 3600 + x1 * 60 + x2)
              end
          end
      end
  | _ => Raise ValueError
  end.

(** A number (a boolean is an [int] too) is converted; a string is split
    at the colons; anything else has no [split] method.  The conversion of
    an integer is taken as exact: an integer too large for a double, on
    which [float] raises [OverflowError], is outside the model. *)
Definition parse_time_label (s : json) : result Q :=
  match s with
  | JBool b => Ok (if b then 1 else 0)
  | JInt n => Ok (inject_Z n)
  | JFloat q => Ok q
  | JStr str => parse_pieces (split_on colon str)
  | JNull | JList _ | JDict _ => Raise AttributeError
  end.

(** [int(x)] on a value that is not [None]. *)
Definition int_of_json (x : json) : result Z :=
  match x with
  | JBool b => Ok (if b then 1 else 0)%Z
  | JInt n => Ok n
  | JFloat q => Ok (Z.quot (Qnum q) (Zpos (Qden q)))
  | JStr str =>
      match int_of_str str with
      | Some n => Ok n
      | None => Raise ValueError
      end
  | JNull | JList _ | JDict _ => Raise TypeError
  end.

(** The loop over [enumerate(obj)] of the first branch; [i] is the index
    of the next label. *)
Fixpoint parse_labels (i : Z) (labels : list json) : result (list SlideChange) :=
  match labels with
  | [] => Ok []
  | label :: rest =>
      match parse_time_label label with
      | Raise e => Raise e
      | Ok x =>
          match parse_labels (i + 1) rest with
          | Raise e => Raise e
          | Ok more => Ok (mkSlideChange x (Some (i + 1)%Z) :: more)
          end
      end
  end.

(** One item of the second branch: [it["t"]], then the optional page. *)
Definition parse_item (it : json) : result SlideChange :=
  match it with
  | JDict entries =>
      match dict_get entries "t" with
      | None => Raise KeyError
      | Some label =>
          match parse_time_label label with
          | Raise e => Raise e
          | Ok x =>
              match dict_get entries "page" with
              | None | Some JNull => Ok (mkSlideChange x None)
              | Some v =>
                  match int_of_json v with
                  | Raise e => Raise e
                  | Ok p => Ok (mkSlideChange x (Some p))
                  end
              end
          end
      end
  | _ => Raise TypeError
  end.

Fixpoint parse_items (items : list json) : result (list SlideChange) :=
  match items with
  | [] => Ok []
  | it :: rest =>
      match parse_item it with
      | Raise e => Raise e
      | Ok ch =>
          match parse_items rest with
          | Raise e => Raise e
          | Ok more => Ok (ch :: more)
          end
      end
  end.

(** [isinstance(x, (int, float, str))] *)
Definition is_label (x : json) : bool :=
  match x with
  | JBool _ | JInt _ | JFloat _ | JStr _ => true
  | _ => false
  end.

Definition parse_timeline (obj : json) : result (list SlideChange) :=
  match obj with
  | JList items =>
      match items with
      | first :: _ =>
          if is_label first then parse_labels 0 items else parse_items items
      | [] => parse_items items
      end
  | _ => Raise ValueError
  end.
End Parsers.

(** The number of occurrences of a character in a string. *)
Fixpoint count_char (c : ascii) (s : string) : nat :=
  match s with
  | EmptyString => O
  | String c' rest =>
      if Ascii.eqb c' c then S (count_char c rest) else count_char c rest
  end.

(** The slide list that [main] assumes in a dry run:
    one path for every [i] in [range(1, len(timeline_raw))]; [name i]
    stands for the path built from [i]. *)
Definition dry_run_slides (name : Z -> string) (timeline_raw : list json)
  : list string :=
  map (fun k => name (Z.of_nat k)) (seq 1 (List.length timeline_raw - 1)).

(** ** The cut list in double arithmetic

    The same code on binary64 floats (the kernel's primitive floats, which
    evaluate as Python's do): used where the rounding of an addition
    decides the result.  Decimal literals denote the nearest double, as in
    Python. *)

Set Warnings "-inexact-float".

Module F64.

Definition Cut : Type := float * float.

Definition pymax (a b : float) : float := if PrimFloat.ltb a b then b else a.
Definition pymin (a b : float) : float := if PrimFloat.ltb b a then b else a.

Definition eps9 : float := 1e-9%float.

Definition tuple_lt (x y : Cut) : bool :=
  if PrimFloat.eqb (fst x) (fst y) then PrimFloat.ltb (snd x) (snd y)
  else PrimFloat.ltb (fst x) (fst y).

Definition segments (cuts : list Cut) : list Cut :=
  map (fun c => (pymin (fst c) (snd c), pymax (fst c) (snd c)))
      (filter (fun c => PrimFloat.ltb (pymin (fst c) (snd c))
                                      (pymax (fst c) (snd c))) cuts).

Definition merge_step (merged : list Cut) (seg : Cut) : list Cut :=
  match merged with
  | [] => [seg]
  | (ls, le) :: earlier =>
      if PrimFloat.ltb (PrimFloat.add le eps9) (fst seg) then seg :: merged
      else (ls, pymax le (snd seg)) :: earlier
  end.

Definition normalize_cuts (cuts : list Cut) : list Cut :=
  rev (fold_left merge_step (sort tuple_lt (segments cuts)) []).

Definition map_cut (skew : float) (cut : Cut) : Cut :=
  (PrimFloat.add (fst cut) skew, PrimFloat.add (snd cut) skew).

Definition main_cuts (skew : float) (parsed : list Cut) : list Cut :=
  let cuts := normalize_cuts parsed in
  if negb (PrimFloat.eqb skew 0%float) then map (map_cut skew) cuts else cuts.

(** The order of the specification: shift first, then normalize. *)
Definition spec_skewed_cuts (skew : float) (parsed : list Cut) : list Cut :=
  normalize_cuts (map (map_cut skew) parsed).

(** All the values that occur in a cut list. *)
Definition endpoints (cuts : list Cut) : list float :=
  flat_map (fun c => [fst c; snd c]) cuts.

(** The value [x] occurs in the list; both values of the pair [c] do. *)
Definition occurs (cuts : list Cut) (x : float) : Prop :=
  In x (endpoints cuts).
Definition both_occur (cuts : list Cut) (c : Cut) : Prop :=
  occurs cuts (fst c) /\ occurs cuts (snd c).

(** Adding [skew] to [a] and [b] leaves the three tests of
    [normalize_cuts] as they were: [a < b], [a == b] and the merge test
    [b > a + 1e-9]. *)
Definition keeps_tests (skew a b : float) : bool :=
  Bool.eqb (PrimFloat.ltb (PrimFloat.add a skew) (PrimFloat.add b skew))
           (PrimFloat.ltb a b)
  && Bool.eqb (PrimFloat.eqb (PrimFloat.add a skew) (PrimFloat.add b skew))
              (PrimFloat.eqb a b)
  && Bool.eqb (PrimFloat.ltb (PrimFloat.add (PrimFloat.add a skew) eps9)
                             (PrimFloat.add b skew))
              (PrimFloat.ltb (PrimFloat.add a eps9) b).

(** The shift by [skew] keeps those tests between all the values of the
    list. *)
Definition shift_keeps_tests (skew : float) (cuts : list Cut) : bool :=
  forallb (fun a => forallb (keeps_tests skew a) (endpoints cuts))
          (endpoints cuts).

End F64.

(** * Properties *)

(** ** The examples of the specification *)

Example normalize_example :
  normalize_cuts [(10, 20); (19, 25)] = [(10, 25)].
Proof. reflexivity. Qed.

Example adjust_example :
  adjust_timeline [mkSlideChange 22 (Some 1%Z); mkSlideChange 30 (Some 2%Z)]
    [(10, 20); (19, 25)] 100 = [(10, 1%Z); (15, 2%Z)].
Proof. reflexivity. Qed.

Example fragments_example :
  cuts_to_fragments [(10, 20); (50, 60)] 100 = [(0, 10); (20, 50); (60, 100)].
Proof. reflexivity. Qed.

(** ** Arithmetic helpers *)

Lemma ltb_lt a b : ltb a b = true <-> a < b.
Proof.
  unfold ltb. rewrite Qlt_alt. destruct (a ?= b); split; congruence.
Qed.

Lemma ltb_ge a b : ltb a b = false <-> b <= a.
Proof.
  split; intro H.
  - destruct (Qlt_le_dec a b) as [L | L]; [ | exact L].
    apply ltb_lt in L. congruence.
  - destruct (ltb a b) eqn:E; [ | reflexivity].
    apply ltb_lt in E. exfalso; lra.
Qed.

Lemma leb_le a b : leb a b = true <-> a <= b.
Proof.
  unfold leb. rewrite Qle_alt. destruct (a ?= b); split; congruence.
Qed.

Lemma leb_gt a b : leb a b = false <-> b < a.
Proof.
  split; intro H.
  - destruct (Qlt_le_dec b a) as [L | L]; [exact L | ].
    apply leb_le in L. congruence.
  - destruct (leb a b) eqn:E; [ | reflexivity].
    apply leb_le in E. exfalso; lra.
Qed.

(** Turns the boolean tests of the hypotheses into order facts. *)
Ltac order_facts :=
  repeat match goal with
  | H : ltb _ _ = true |- _ => apply ltb_lt in H
  | H : ltb _ _ = false |- _ => apply ltb_ge in H
  | H : leb _ _ = true |- _ => apply leb_le in H
  | H : leb _ _ = false |- _ => apply leb_gt in H
  | H : _ && _ = true |- _ => apply andb_true_iff in H; destruct H
  | H : _ /\ _ |- _ => destruct H
  end.

(** Case analysis on the first comparison of the goal. *)
Ltac split_test :=
  match goal with
  | |- context [ltb ?a ?b] => destruct (ltb a b) eqn:?
  | |- context [leb ?a ?b] => destruct (leb a b) eqn:?
  end.

Lemma ltb_equiv a b c d : (a < b <-> c < d) -> ltb a b = ltb c d.
Proof.
  intro H. destruct (ltb a b) eqn:E1, (ltb c d) eqn:E2; try reflexivity;
    order_facts; exfalso.
  - apply H in E1. lra.
  - apply H in E2. lra.
Qed.

Lemma Qeq_bool_equiv a b c d : (a == b <-> c == d) -> Qeq_bool a b = Qeq_bool c d.
Proof.
  intro H. destruct (Qeq_bool a b) eqn:E1, (Qeq_bool c d) eqn:E2;
    try reflexivity; exfalso.
  - apply Qeq_bool_iff in E1. apply H in E1. apply Qeq_bool_iff in E1.
    congruence.
  - apply Qeq_bool_iff in E2. apply H in E2. apply Qeq_bool_iff in E2.
    congruence.
Qed.

Lemma pymax_cases a b :
  (a < b /\ pymax a b = b) \/ (b <= a /\ pymax a b = a).
Proof. unfold pymax. split_test; order_facts; auto. Qed.

Lemma pymin_cases a b :
  (b < a /\ pymin a b = b) \/ (a <= b /\ pymin a b = a).
Proof. unfold pymin. split_test; order_facts; auto. Qed.

Lemma pymax_lub a b : a <= pymax a b /\ b <= pymax a b.
Proof. destruct (pymax_cases a b) as [[H ->] | [H ->]]; split; lra. Qed.

Lemma Qminus_0_r_eq (q : Q) : q - 0 = q.
Proof.
  destruct q as [n d]. unfold Qminus, Qplus, Qopp. simpl.
  rewrite Z.mul_1_r, Z.add_0_r, Pos.mul_1_r. reflexivity.
Qed.

Lemma clip_nonneg L x : 0 <= clip L x.
Proof. unfold clip. apply pymax_lub. Qed.

(** Clamping an already clipped time at zero returns it unchanged. *)
Lemma pymax_clip L x : pymax 0 (clip L x) = clip L x.
Proof.
  unfold clip. set (m := pymin L x). unfold pymax.
  destruct (ltb 0 m) eqn:E; [rewrite E | ]; reflexivity.
Qed.

(** For a non-negative length [clip] is the clamp to [[0, L]]. *)
Lemma clip_range L x :
  0 <= L ->
  (x <= 0 -> clip L x == 0) /\ (0 <= x -> x <= L -> clip L x == x)
  /\ (L <= x -> clip L x == L).
Proof.
  intro HL. unfold clip.
  destruct (pymin_cases L x) as [[H1 ->] | [H1 ->]];
    destruct (pymax_cases 0 x) as [[H2 E2] | [H2 E2]];
    destruct (pymax_cases 0 L) as [[H3 E3] | [H3 E3]];
    rewrite ?E2, ?E3; repeat split; intros; lra.
Qed.

(** ** The sort keeps the elements *)

Section SortFacts.
Context {A : Type} (lt : A -> A -> bool).

Lemma insert_In x y l : In x (insert lt y l) <-> x = y \/ In x l.
Proof.
  induction l as [ | z l IH]; simpl.
  - intuition.
  - destruct (lt z y); simpl; rewrite ?IH; intuition.
Qed.

Lemma sort_In x l : In x (sort lt l) <-> In x l.
Proof.
  induction l as [ | y l IH]; simpl; [tauto | ].
  rewrite insert_In, IH. intuition.
Qed.

Lemma sort_Forall (P : A -> Prop) l : Forall P l -> Forall P (sort lt l).
Proof.
  rewrite !Forall_forall. intros H x Hx. apply H, sort_In, Hx.
Qed.

(** Inserting in front of a list whose head is not smaller. *)
Lemma insert_head x y l : lt y x = false -> insert lt x (y :: l) = x :: y :: l.
Proof. intro H. simpl. rewrite H. reflexivity. Qed.
End SortFacts.

(** [sort] is a sort: for an asymmetric order its result is a
    permutation of the input in which no element is strictly smaller than
    its predecessor. *)
Section SortSorted.
Context {A : Type} (lt : A -> A -> bool).
Hypothesis lt_asym : forall x y, lt x y = true -> lt y x = false.

Lemma insert_permutation x l : Permutation (insert lt x l) (x :: l).
Proof.
  induction l as [ | y l IH]; simpl; [reflexivity | ].
  destruct (lt y x); [ | reflexivity].
  rewrite IH. apply perm_swap.
Qed.

Lemma sort_permutation l : Permutation (sort lt l) l.
Proof.
  induction l as [ | x l IH]; simpl; [reflexivity | ].
  rewrite insert_permutation, IH. reflexivity.
Qed.

Lemma insert_sorted x l :
  Sorted (fun a b => lt b a = false) l ->
  Sorted (fun a b => lt b a = false) (insert lt x l).
Proof.
  induction 1 as [ | y l Hl IH Hy]; simpl; [repeat constructor | ].
  destruct (lt y x) eqn:E.
  - constructor; [exact IH | ].
    destruct l as [ | z l]; simpl.
    + constructor. apply lt_asym, E.
    + inversion Hy; subst. destruct (lt z x); constructor;
        [assumption | apply lt_asym, E].
  - repeat constructor; assumption.
Qed.

Lemma sort_sorted l : Sorted (fun a b => lt b a = false) (sort lt l).
Proof.
  induction l as [ | x l IH]; simpl; [constructor | ].
  apply insert_sorted, IH.
Qed.
End SortSorted.

Lemma key_lt_asym x y : key_lt x y = true -> key_lt y x = false.
Proof. unfold key_lt. intro H. apply ltb_lt in H. apply ltb_ge. lra. Qed.

Lemma tuple_lt_asym x y : tuple_lt x y = true -> tuple_lt y x = false.
Proof.
  unfold tuple_lt.
  rewrite (Qeq_bool_equiv (fst y) (fst x) (fst x) (fst y))
    by (split; intro; lra).
  destruct (Qeq_bool (fst x) (fst y)); intro H; apply ltb_lt in H;
    apply ltb_ge; lra.
Qed.

(** ** The strict-monotonicity pass *)

Lemma clean_loop_from adjusted : forall cleaned last_t,
  fst (fold_left clean_step adjusted (cleaned, last_t))
  = cleaned ++ strict_from last_t adjusted.
Proof.
  induction adjusted as [ | x rest IH]; intros cleaned last_t; simpl.
  - rewrite app_nil_r. reflexivity.
  - destruct (ltb (last_t + eps6) (fst x)).
    + rewrite IH, <- app_assoc. reflexivity.
    + apply IH.
Qed.

Lemma strict_pass_from adjusted :
  strict_pass adjusted = strict_from minus_1e9 adjusted.
Proof. unfold strict_pass. rewrite clean_loop_from. reflexivity. Qed.

Lemma strict_from_In x adjusted : forall last_t,
  In x (strict_from last_t adjusted) -> In x adjusted.
Proof.
  induction adjusted as [ | y rest IH]; intros last_t; simpl; [tauto | ].
  destruct (ltb (last_t + eps6) (fst y)); simpl; intros H.
  - destruct H as [H | H]; eauto.
  - eauto.
Qed.

Lemma strict_from_above adjusted : forall last_t,
  Forall (fun x => last_t < fst x) (strict_from last_t adjusted).
Proof.
  induction adjusted as [ | y rest IH]; intros last_t; simpl; [constructor | ].
  destruct (ltb (last_t + eps6) (fst y)) eqn:E; [ | apply IH].
  order_facts. unfold eps6 in E. constructor; [lra | ].
  eapply Forall_impl; [ | apply IH]. simpl. intros z Hz. lra.
Qed.

Lemma strict_from_increasing adjusted : forall last_t,
  StronglySorted time_lt (strict_from last_t adjusted).
Proof.
  induction adjusted as [ | y rest IH]; intros last_t; simpl; [constructor | ].
  destruct (ltb (last_t + eps6) (fst y)); [ | apply IH].
  constructor; [apply IH | apply strict_from_above].
Qed.

(** Every entry of the result is the mapped form of some input event. *)
Lemma adjust_timeline_In changes cuts L x :
  In x (adjust_timeline changes cuts L) ->
  exists ch, In ch changes /\ x = map_event (normalize_cuts cuts) L ch.
Proof.
  unfold adjust_timeline. rewrite strict_pass_from. intro H.
  apply strict_from_In, sort_In, in_map_iff in H.
  destruct H as [ch [E Hin]]. exists ch. auto.
Qed.

(** With no cuts an event keeps its clipped time. *)
Lemma map_event_no_cuts L ch :
  map_event [] L ch = (clip L (t ch), page_or_sentinel (page ch)).
Proof.
  unfold map_event, total_cut_before. simpl.
  rewrite Qminus_0_r_eq, pymax_clip. reflexivity.
Qed.

(** ** Claims about [adjust_timeline] on any input *)

(** C5.  For every slide-change list, every cut list and every audio
    duration, the sequence returned by [adjust_timeline] is strictly
    increasing in its time component across the whole sequence: every entry
    is strictly earlier than every entry after it. *)
Theorem adjust_timeline_strictly_increasing changes cuts L :
  StronglySorted time_lt (adjust_timeline changes cuts L).
Proof.
  unfold adjust_timeline. rewrite strict_pass_from.
  apply strict_from_increasing.
Qed.

(** C10.  Every entry of [adjust_timeline]'s output is the mapped form of
    an input event, and when that event's page is [None] the entry carries
    page [-1], which is below every valid (1-based) page number. *)
Theorem unspecified_page_sentinel changes cuts L tp :
  In tp (adjust_timeline changes cuts L) ->
  exists ch, In ch changes /\ tp = map_event (normalize_cuts cuts) L ch /\
    (page ch = None ->
     snd tp = (-1)%Z /\ forall q : Z, (1 <= q)%Z -> (snd tp < q)%Z).
Proof.
  intro H. apply adjust_timeline_In in H. destruct H as [ch [Hin E]].
  exists ch. repeat split; auto; subst tp; unfold map_event; simpl;
    rewrite H; simpl; [reflexivity | lia].
Qed.

Lemma unspecified_page_sentinel_witness :
  In (3, (-1)%Z) (adjust_timeline [mkSlideChange 3 None] [(10, 20)] 100) /\
  exists ch, In ch [mkSlideChange 3 None] /\
    (3, (-1)%Z) = map_event (normalize_cuts [(10, 20)]) 100 ch /\
    (page ch = None ->
     snd (3, (-1)%Z) = (-1)%Z /\
     forall q : Z, (1 <= q)%Z -> (snd (3, (-1)%Z) < q)%Z).
Proof.
  split.
  - vm_compute. left. reflexivity.
  - apply (unspecified_page_sentinel [mkSlideChange 3 None] [(10, 20)] 100).
    vm_compute. left. reflexivity.
Defined.


(** ** [normalize_cuts] and its invariant *)

Lemma merge_loop_from segs : forall ls le earlier,
  rev (fold_left merge_step segs ((ls, le) :: earlier))
  = rev earlier ++ merge_from (ls, le) segs.
Proof.
  induction segs as [ | [s e] rest IH]; intros ls le earlier; simpl.
  - reflexivity.
  - destruct (ltb (le + eps9) s).
    + rewrite IH. simpl. rewrite <- app_assoc. reflexivity.
    + apply IH.
Qed.

Lemma normalize_cuts_from cuts :
  normalize_cuts cuts
  = match sort tuple_lt (segments cuts) with
    | [] => []
    | x :: rest => merge_from x rest
    end.
Proof.
  unfold normalize_cuts.
  destruct (sort tuple_lt (segments cuts)) as [ | [s e] rest]; [reflexivity | ].
  simpl. apply (merge_loop_from rest s e []).
Qed.

Lemma merge_from_head segs : forall cur,
  exists e' tl, merge_from cur segs = (fst cur, e') :: tl /\ snd cur <= e'.
Proof.
  induction segs as [ | seg rest IH]; intros [s e]; simpl.
  - exists e, []. split; [reflexivity | lra].
  - destruct (ltb (e + eps9) (fst seg)).
    + exists e, (merge_from seg rest). split; [reflexivity | lra].
    + destruct (IH (s, pymax e (snd seg))) as [e' [tl [E Hle]]].
      exists e', tl. split; [exact E | ]. simpl in Hle.
      pose proof (pymax_lub e (snd seg)). lra.
Qed.

Lemma is_normalized_intro s e rest :
  s < e ->
  match rest with [] => True | c :: _ => e + eps9 < fst c end ->
  is_normalized rest = true ->
  is_normalized ((s, e) :: rest) = true.
Proof.
  intros H1 H2 H3. change (is_normalized ((s, e) :: rest)) with
    (ltb s e
     && match rest with [] => true | (s', _) :: _ => ltb (e + eps9) s' end
     && is_normalized rest).
  apply ltb_lt in H1. rewrite H1, H3.
  destruct rest as [ | [s' e'] r]; [reflexivity | ].
  simpl in H2. apply ltb_lt in H2. rewrite H2. reflexivity.
Qed.

Lemma merge_from_normalized segs : forall cur,
  proper cur -> Forall proper segs -> is_normalized (merge_from cur segs) = true.
Proof.
  unfold proper.
  induction segs as [ | seg rest IH]; intros [s e] Hc Hs; simpl in *.
  - apply ltb_lt in Hc. rewrite Hc. reflexivity.
  - inversion Hs as [ | ? ? Hseg Hrest]; subst.
    destruct (ltb (e + eps9) (fst seg)) eqn:G.
    + specialize (IH seg Hseg Hrest).
      destruct (merge_from_head rest seg) as [e' [tl [E _]]].
      apply is_normalized_intro; [exact Hc | | exact IH].
      rewrite E. simpl. apply ltb_lt, G.
    + apply IH; [ | exact Hrest]. simpl.
      pose proof (pymax_lub e (snd seg)). lra.
Qed.

Lemma segments_proper cuts : Forall proper (segments cuts).
Proof.
  unfold segments. apply Forall_forall. intros x Hx.
  apply in_map_iff in Hx. destruct Hx as [c [<- Hc]].
  apply filter_In in Hc. destruct Hc as [_ Hc]. apply ltb_lt in Hc. exact Hc.
Qed.

(** The result of [normalize_cuts] satisfies the invariant. *)
Lemma normalize_cuts_normalized cuts : is_normalized (normalize_cuts cuts) = true.
Proof.
  rewrite normalize_cuts_from.
  pose proof (sort_Forall tuple_lt proper _ (segments_proper cuts)) as H.
  destruct (sort tuple_lt (segments cuts)) as [ | x rest]; [reflexivity | ].
  inversion H; subst. apply merge_from_normalized; assumption.
Qed.

Lemma is_normalized_cons s e rest :
  is_normalized ((s, e) :: rest) = true ->
  s < e /\ is_normalized rest = true /\
  match rest with [] => True | c :: _ => e + eps9 < fst c end.
Proof.
  simpl. intro H. apply andb_true_iff in H. destruct H as [H H3].
  apply andb_true_iff in H. destruct H as [H1 H2]. apply ltb_lt in H1.
  repeat split; auto. destruct rest as [ | [s' e'] r]; [exact I | ].
  apply ltb_lt in H2. exact H2.
Qed.

Lemma is_normalized_proper cuts :
  is_normalized cuts = true -> Forall proper cuts.
Proof.
  induction cuts as [ | [s e] rest IH]; intro H; [constructor | ].
  apply is_normalized_cons in H. destruct H as [H1 [H2 _]].
  constructor; [exact H1 | auto].
Qed.

(** In a normalized list every later interval starts more than [1e-9]
    after the end of an earlier one. *)
Lemma is_normalized_gap rest : forall s e,
  is_normalized ((s, e) :: rest) = true ->
  Forall (fun c => e + eps9 < fst c) rest.
Proof.
  induction rest as [ | [s' e'] r IH]; intros s e H; [constructor | ].
  apply is_normalized_cons in H. destruct H as [H1 [H2 H3]]. simpl in H3.
  constructor; [exact H3 | ].
  pose proof (is_normalized_cons _ _ _ H2) as [H4 _].
  eapply Forall_impl; [ | apply (IH s' e' H2)].
  simpl. intros c Hc. unfold eps9 in *. lra.
Qed.

Lemma segments_fixed cuts : Forall proper cuts -> segments cuts = cuts.
Proof.
  unfold segments, proper.
  induction 1 as [ | [s e] rest H _ IH]; [reflexivity | ]. simpl in *.
  assert (E1 : pymin s e = s).
  { destruct (pymin_cases s e) as [[G _] | [_ G]]; [lra | exact G]. }
  assert (E2 : pymax s e = e).
  { destruct (pymax_cases s e) as [[_ G] | [G _]]; [exact G | lra]. }
  rewrite E1, E2. apply ltb_lt in H. rewrite H. simpl.
  rewrite E1, E2, IH. reflexivity.
Qed.

Lemma sort_fixed cuts : is_normalized cuts = true -> sort tuple_lt cuts = cuts.
Proof.
  induction cuts as [ | [s e] rest IH]; intro H; [reflexivity | ].
  apply is_normalized_cons in H. destruct H as [H1 [H2 H3]].
  simpl. rewrite (IH H2). destruct rest as [ | [s' e'] r]; [reflexivity | ].
  simpl in H3. apply insert_head. unfold tuple_lt. simpl.
  assert (G : s < s') by (unfold eps9 in H3; lra).
  destruct (Qeq_bool s' s) eqn:Q.
  - apply Qeq_bool_eq in Q. lra.
  - apply ltb_ge. lra.
Qed.

Lemma merge_from_fixed rest : forall c,
  is_normalized (c :: rest) = true -> merge_from c rest = c :: rest.
Proof.
  induction rest as [ | c' r IH]; intros [s e] H; [reflexivity | ].
  apply is_normalized_cons in H. destruct H as [H1 [H2 H3]].
  simpl in *. apply ltb_lt in H3. rewrite H3, (IH c' H2). reflexivity.
Qed.

(** A list that satisfies the invariant is returned unchanged. *)
Lemma normalize_cuts_fixed cuts :
  is_normalized cuts = true -> normalize_cuts cuts = cuts.
Proof.
  intro H. rewrite normalize_cuts_from.
  rewrite (segments_fixed _ (is_normalized_proper _ H)), (sort_fixed _ H).
  destruct cuts as [ | c rest]; [reflexivity | ].
  apply merge_from_fixed, H.
Qed.

(** The invariant characterizes the lists that [normalize_cuts] returns
    unchanged. *)
Lemma is_normalized_iff cuts :
  is_normalized cuts = true <-> normalize_cuts cuts = cuts.
Proof.
  split; [apply normalize_cuts_fixed | ].
  intros <-. apply normalize_cuts_normalized.
Qed.

(** C7.  [normalize_cuts] is idempotent: applying it to its own result
    returns that result unchanged, for every input cut list. *)
Theorem normalize_cuts_idempotent cuts :
  normalize_cuts (normalize_cuts cuts) = normalize_cuts cuts.
Proof. apply normalize_cuts_fixed, normalize_cuts_normalized. Qed.

(** ** The removed duration grows with the query time *)

Lemma cut_step_mono t1 t2 a1 a2 c :
  fst c <= snd c -> a1 <= a2 -> t1 <= t2 ->
  cut_step t1 a1 c <= cut_step t2 a2 c.
Proof.
  destruct c as [s e]. simpl. intros Hc Ha Ht. unfold cut_step.
  destruct (leb e t1) eqn:?, (leb e t2) eqn:?, (ltb s t1) eqn:?,
    (ltb t1 e) eqn:?, (ltb s t2) eqn:?, (ltb t2 e) eqn:?;
    simpl; order_facts; lra.
Qed.

Lemma cut_loop_mono cuts : forall t1 t2 a1 a2,
  Forall (fun c => fst c <= snd c) cuts -> a1 <= a2 -> t1 <= t2 ->
  fold_left (cut_step t1) cuts a1 <= fold_left (cut_step t2) cuts a2.
Proof.
  induction cuts as [ | c rest IH]; intros t1 t2 a1 a2 Hc Ha Ht; simpl.
  - exact Ha.
  - inversion Hc; subst. apply IH; auto. apply cut_step_mono; auto.
Qed.

Lemma proper_ordered cuts :
  Forall proper cuts -> Forall (fun c : Cut => fst c <= snd c) cuts.
Proof.
  apply Forall_impl. unfold proper. intros c H. lra.
Qed.

(** C4.  For every normalized cut list and all times [t1 <= t2],
    [total_cut_before t1 cuts <= total_cut_before t2 cuts]: the removed
    duration is non-decreasing in the query time. *)
Theorem total_cut_before_monotone cuts t1 t2 :
  is_normalized cuts = true -> t1 <= t2 ->
  total_cut_before t1 cuts <= total_cut_before t2 cuts.
Proof.
  intros Hn Ht. unfold total_cut_before.
  apply cut_loop_mono; [ | lra | exact Ht].
  apply proper_ordered, is_normalized_proper, Hn.
Qed.

Lemma total_cut_before_monotone_witness :
  is_normalized [(10, 20); (50, 60)] = true /\ 15 <= 55 /\
  total_cut_before 15 [(10, 20); (50, 60)]
  <= total_cut_before 55 [(10, 20); (50, 60)].
Proof.
  split; [reflexivity | split; [lra | ]].
  apply (total_cut_before_monotone [(10, 20); (50, 60)] 15 55);
    [reflexivity | lra].
Defined.

(** ** Inverted and zero-length pairs *)

Lemma segments_app l1 l2 : segments (l1 ++ l2) = segments l1 ++ segments l2.
Proof. unfold segments. rewrite filter_app, map_app. reflexivity. Qed.

Lemma segments_inverted a b : b < a -> segments [(a, b)] = [(b, a)].
Proof.
  intro H. unfold segments. simpl.
  assert (E1 : pymin a b = b).
  { destruct (pymin_cases a b) as [[_ G] | [G _]]; [exact G | lra]. }
  assert (E2 : pymax a b = a).
  { destruct (pymax_cases a b) as [[G _] | [_ G]]; [lra | exact G]. }
  rewrite E1, E2. apply ltb_lt in H. rewrite H. simpl.
  rewrite E1, E2. reflexivity.
Qed.

Lemma segments_zero_length a b : a == b -> segments [(a, b)] = [].
Proof.
  intro H. unfold segments. simpl.
  assert (E1 : pymin a b = a).
  { destruct (pymin_cases a b) as [[G _] | [_ G]]; [lra | exact G]. }
  assert (E2 : pymax a b = a).
  { destruct (pymax_cases a b) as [[G _] | [_ G]]; [lra | exact G]. }
  rewrite E1, E2.
  assert (E : ltb a a = false) by (apply ltb_ge; lra).
  rewrite E. reflexivity.
Qed.

Lemma normalize_cuts_segments l1 l2 :
  segments l1 = segments l2 -> normalize_cuts l1 = normalize_cuts l2.
Proof. unfold normalize_cuts. intros ->. reflexivity. Qed.

(** C1 (as amended).  An inverted pair is not dropped: it contributes
    the same interval as the pair written in order, and alone it normalizes
    to that interval.  Only a pair with numerically equal values is
    dropped. *)
Theorem inverted_pair_reordered l1 a b l2 :
  b < a ->
  normalize_cuts (l1 ++ (a, b) :: l2) = normalize_cuts (l1 ++ (b, a) :: l2)
  /\ normalize_cuts [(a, b)] = [(b, a)]
  /\ (forall z z', z == z' ->
      normalize_cuts (l1 ++ (z, z') :: l2) = normalize_cuts (l1 ++ l2)).
Proof.
  intro H.
  assert (E : segments [(a, b)] = segments [(b, a)]).
  { rewrite (segments_inverted a b H). symmetry.
    apply (segments_fixed [(b, a)]). constructor; [exact H | constructor]. }
  repeat split.
  - apply normalize_cuts_segments.
    change ((a, b) :: l2) with ([(a, b)] ++ l2).
    change ((b, a) :: l2) with ([(b, a)] ++ l2).
    rewrite !segments_app, E. reflexivity.
  - rewrite (normalize_cuts_segments _ _ E).
    apply normalize_cuts_fixed. simpl.
    apply ltb_lt in H. rewrite H. reflexivity.
  - intros z z' Hz. apply normalize_cuts_segments.
    change ((z, z') :: l2) with ([(z, z')] ++ l2).
    rewrite !segments_app, (segments_zero_length z z' Hz). reflexivity.
Qed.

Lemma inverted_pair_reordered_witness :
  2 < 5 /\
  (normalize_cuts ([(0, 1)] ++ (5, 2) :: [(7, 9)])
   = normalize_cuts ([(0, 1)] ++ (2, 5) :: [(7, 9)])
   /\ normalize_cuts [(5, 2)] = [(2, 5)]
   /\ (forall z z', z == z' ->
       normalize_cuts ([(0, 1)] ++ (z, z') :: [(7, 9)])
       = normalize_cuts ([(0, 1)] ++ [(7, 9)]))).
Proof.
  split; [lra | ].
  apply (inverted_pair_reordered [(0, 1)] 5 2 [(7, 9)]). lra.
Defined.

(** C1 fails as stated: the inverted pair [(5, 2)] is kept as the
    interval [(2, 5)], where dropping it would leave no interval. *)
Lemma inverted_pair_not_dropped :
  2 < 5 /\ normalize_cuts [(5, 2)] = [(2, 5)]
  /\ normalize_cuts ([] ++ (5, 2) :: []) <> normalize_cuts ([] ++ []).
Proof.
  split; [lra | split; [reflexivity | ]]. vm_compute. discriminate.
Qed.

(** ** A uniform shift and normalization *)

Lemma ltb_shift k a b : ltb (a + k) (b + k) = ltb a b.
Proof. apply ltb_equiv. split; intro; lra. Qed.

Section SortMapOn.
Context {A : Type} (lt : A -> A -> bool) (f : A -> A) (P : A -> Prop).
Hypothesis lt_f : forall x y, P x -> P y -> lt (f x) (f y) = lt x y.

Lemma insert_map_on x l :
  P x -> Forall P l -> insert lt (f x) (map f l) = map f (insert lt x l).
Proof.
  intros Hx. induction 1 as [ | y l Hy _ IH]; simpl; [reflexivity | ].
  rewrite (lt_f y x Hy Hx). destruct (lt y x); simpl;
    [rewrite IH | ]; reflexivity.
Qed.

Lemma sort_map_on l : Forall P l -> sort lt (map f l) = map f (sort lt l).
Proof.
  induction 1 as [ | x l Hx Hl IH]; simpl; [reflexivity | ].
  rewrite IH. apply insert_map_on; [exact Hx | ].
  apply sort_Forall, Hl.
Qed.
End SortMapOn.

Section ShiftInDoubles.
Variable skew : float.
Variable cuts0 : list F64.Cut.
Hypothesis kept : F64.shift_keeps_tests skew cuts0 = true.

Lemma f64_tests_kept a b :
  (F64.occurs cuts0) a -> (F64.occurs cuts0) b ->
  PrimFloat.ltb (PrimFloat.add a skew) (PrimFloat.add b skew)
  = PrimFloat.ltb a b
  /\ PrimFloat.eqb (PrimFloat.add a skew) (PrimFloat.add b skew)
     = PrimFloat.eqb a b
  /\ PrimFloat.ltb (PrimFloat.add (PrimFloat.add a skew) F64.eps9)
                   (PrimFloat.add b skew)
     = PrimFloat.ltb (PrimFloat.add a F64.eps9) b.
Proof.
  intros Ha Hb. unfold F64.shift_keeps_tests in kept.
  rewrite forallb_forall in kept. specialize (kept a Ha).
  rewrite forallb_forall in kept. specialize (kept b Hb).
  unfold F64.keeps_tests in kept.
  apply andb_true_iff in kept. destruct kept as [K K3].
  apply andb_true_iff in K. destruct K as [K1 K2].
  apply Bool.eqb_prop in K1. apply Bool.eqb_prop in K2.
  apply Bool.eqb_prop in K3. auto.
Qed.

Lemma f64_cuts_in_domain : Forall (F64.both_occur cuts0) cuts0.
Proof.
  apply Forall_forall. intros c Hc. unfold F64.both_occur, F64.occurs, F64.endpoints.
  split; apply in_flat_map; exists c; split; try exact Hc; simpl; auto.
Qed.

Lemma f64_pymin_shift a b :
  (F64.occurs cuts0) a -> (F64.occurs cuts0) b ->
  F64.pymin (PrimFloat.add a skew) (PrimFloat.add b skew)
  = PrimFloat.add (F64.pymin a b) skew /\ (F64.occurs cuts0) (F64.pymin a b).
Proof.
  intros Ha Hb. unfold F64.pymin.
  destruct (f64_tests_kept b a Hb Ha) as [-> _].
  destruct (PrimFloat.ltb b a); auto.
Qed.

Lemma f64_pymax_shift a b :
  (F64.occurs cuts0) a -> (F64.occurs cuts0) b ->
  F64.pymax (PrimFloat.add a skew) (PrimFloat.add b skew)
  = PrimFloat.add (F64.pymax a b) skew /\ (F64.occurs cuts0) (F64.pymax a b).
Proof.
  intros Ha Hb. unfold F64.pymax.
  destruct (f64_tests_kept a b Ha Hb) as [-> _].
  destruct (PrimFloat.ltb a b); auto.
Qed.

Lemma f64_tuple_lt_shift x y :
  (F64.both_occur cuts0) x -> (F64.both_occur cuts0) y ->
  F64.tuple_lt (F64.map_cut skew x) (F64.map_cut skew y) = F64.tuple_lt x y.
Proof.
  intros [Hx1 Hx2] [Hy1 Hy2]. unfold F64.tuple_lt, F64.map_cut. simpl.
  destruct (f64_tests_kept _ _ Hx1 Hy1) as [-> [-> _]].
  destruct (f64_tests_kept _ _ Hx2 Hy2) as [-> _]. reflexivity.
Qed.

Lemma f64_segments_shift cuts :
  Forall (F64.both_occur cuts0) cuts ->
  F64.segments (map (F64.map_cut skew) cuts)
  = map (F64.map_cut skew) (F64.segments cuts)
  /\ Forall (F64.both_occur cuts0) (F64.segments cuts).
Proof.
  unfold F64.segments.
  induction 1 as [ | [a b] rest [Ha Hb] _ [IH1 IH2]]; simpl;
    [split; [reflexivity | constructor] | ].
  simpl in Ha, Hb.
  destruct (f64_pymin_shift a b Ha Hb) as [E1 D1].
  destruct (f64_pymax_shift a b Ha Hb) as [E2 D2].
  rewrite E1, E2.
  destruct (f64_tests_kept _ _ D1 D2) as [-> _].
  destruct (PrimFloat.ltb (F64.pymin a b) (F64.pymax a b)); simpl.
  - rewrite E1, E2, IH1. split; [reflexivity | ].
    constructor; [split; assumption | exact IH2].
  - split; [exact IH1 | exact IH2].
Qed.

Lemma f64_merge_step_shift merged seg :
  Forall (F64.both_occur cuts0) merged -> (F64.both_occur cuts0) seg ->
  F64.merge_step (map (F64.map_cut skew) merged) (F64.map_cut skew seg)
  = map (F64.map_cut skew) (F64.merge_step merged seg)
  /\ Forall (F64.both_occur cuts0) (F64.merge_step merged seg).
Proof.
  intros Hm [Hs1 Hs2]. destruct merged as [ | [ls le] earlier]; simpl.
  - split; [reflexivity | ]. constructor; [split; assumption | constructor].
  - inversion Hm as [ | ? ? [Hl1 Hl2] He]; subst. simpl in Hl1, Hl2.
    destruct (f64_tests_kept _ _ Hl2 Hs1) as [_ [_ ->]].
    destruct (PrimFloat.ltb (PrimFloat.add le F64.eps9) (fst seg)); simpl.
    + split; [reflexivity | ].
      constructor; [split; assumption | exact Hm].
    + destruct (f64_pymax_shift le (snd seg) Hl2 Hs2) as [E2 D2].
      rewrite E2. split; [reflexivity | ].
      constructor; [split; assumption | exact He].
Qed.

Lemma f64_merge_loop_shift segs : forall merged,
  Forall (F64.both_occur cuts0) segs -> Forall (F64.both_occur cuts0) merged ->
  fold_left F64.merge_step (map (F64.map_cut skew) segs)
            (map (F64.map_cut skew) merged)
  = map (F64.map_cut skew) (fold_left F64.merge_step segs merged).
Proof.
  induction segs as [ | seg rest IH]; intros merged Hs Hm; [reflexivity | ].
  inversion Hs as [ | ? ? Hseg Hrest]; subst. simpl.
  destruct (f64_merge_step_shift merged seg Hm Hseg) as [-> Hm'].
  apply IH; assumption.
Qed.

Lemma f64_normalize_cuts_shift :
  F64.normalize_cuts (map (F64.map_cut skew) cuts0)
  = map (F64.map_cut skew) (F64.normalize_cuts cuts0).
Proof.
  unfold F64.normalize_cuts.
  destruct (f64_segments_shift cuts0 f64_cuts_in_domain) as [-> Hseg].
  rewrite (sort_map_on F64.tuple_lt (F64.map_cut skew) (F64.both_occur cuts0)
             f64_tuple_lt_shift _ Hseg).
  rewrite map_rev. f_equal.
  apply (f64_merge_loop_shift _ []); [ | constructor].
  apply sort_Forall, Hseg.
Qed.
End ShiftInDoubles.

(** C2 (as amended).  In double arithmetic, for every cut list and every
    skew whose addition leaves unchanged the tests that [normalize_cuts]
    makes between the values of the list (order, equality, and the merge
    test [b > a + 1e-9]), shifting every endpoint and then normalizing
    gives the list obtained by normalizing first and then shifting; for a
    skew that is not zero these are the specification's cut list and the
    one [main] builds. *)
Theorem skew_commutes_when_tests_kept skew cuts :
  F64.shift_keeps_tests skew cuts = true ->
  F64.normalize_cuts (map (F64.map_cut skew) cuts)
  = map (F64.map_cut skew) (F64.normalize_cuts cuts)
  /\ (PrimFloat.eqb skew 0%float = false ->
      F64.spec_skewed_cuts skew cuts = F64.main_cuts skew cuts).
Proof.
  intro H. pose proof (f64_normalize_cuts_shift skew cuts H) as E.
  split; [exact E | ].
  intro Hs. unfold F64.spec_skewed_cuts, F64.main_cuts.
  rewrite Hs. simpl. exact E.
Qed.

Lemma skew_commutes_when_tests_kept_witness :
  F64.shift_keeps_tests 0.3%float
    [(0.7, 0.1)%float; (0.65, 0.9)%float; (2.5, 3.1)%float] = true /\
  PrimFloat.eqb 0.3%float 0%float = false /\
  F64.spec_skewed_cuts 0.3%float
    [(0.7, 0.1)%float; (0.65, 0.9)%float; (2.5, 3.1)%float]
  = F64.main_cuts 0.3%float
      [(0.7, 0.1)%float; (0.65, 0.9)%float; (2.5, 3.1)%float].
Proof.
  split; [vm_compute; reflexivity | ]. split; [vm_compute; reflexivity | ].
  apply (skew_commutes_when_tests_kept 0.3%float
           [(0.7, 0.1)%float; (0.65, 0.9)%float; (2.5, 3.1)%float]);
    vm_compute; reflexivity.
Defined.

(** C2 fails as stated: in double arithmetic, with the cuts
    [[0, 1]] and [[1.000000001000001, 2]] and the skew 1000, the second
    start exceeds the first end plus [1e-9] before the shift but not after
    it.  So [main], which normalizes first, keeps two intervals, and the
    specification's order, which shifts first, merges them into one. *)
Lemma skew_rounding_changes_merge :
  F64.main_cuts 1000%float [(0, 1)%float; (1.000000001000001, 2)%float]
  = [(1000, 1001)%float;
     (PrimFloat.add 1.000000001000001%float 1000%float, 1002%float)]
  /\ F64.spec_skewed_cuts 1000%float
       [(0, 1)%float; (1.000000001000001, 2)%float]
     = [(1000, 1002)%float]
  /\ F64.spec_skewed_cuts 1000%float
       [(0, 1)%float; (1.000000001000001, 2)%float]
     <> F64.main_cuts 1000%float
          [(0, 1)%float; (1.000000001000001, 2)%float].
Proof.
  split; [vm_compute; reflexivity | ]. split; [vm_compute; reflexivity | ].
  intro H. apply (f_equal (@List.length F64.Cut)) in H.
  vm_compute in H. discriminate.
Qed.

(** ** The kept fragments *)

Lemma fragments_loop_from L cuts : forall fragments start,
  (let (fs, st) := fragments_loop L cuts fragments start in
   if ltb st L then fs ++ [(st, L)] else fs)
  = fragments ++ fragments_from L start cuts.
Proof.
  induction cuts as [ | [s e] rest IH]; intros fragments start; simpl.
  - destruct (ltb start L); [reflexivity | rewrite app_nil_r; reflexivity].
  - destruct (leb L (pymax start e)) eqn:E.
    + assert (G : ltb (pymax start e) L = false).
      { apply ltb_ge. apply leb_le in E. exact E. }
      rewrite G, app_nil_r. destruct (ltb start s); [reflexivity | ].
      rewrite app_nil_r. reflexivity.
    + rewrite IH. destruct (ltb start s); simpl; [ | reflexivity].
      rewrite <- app_assoc. reflexivity.
Qed.

Lemma cuts_to_fragments_from cuts L :
  cuts_to_fragments cuts L = fragments_from L 0 cuts.
Proof.
  unfold cuts_to_fragments. apply (fragments_loop_from L cuts [] 0).
Qed.

Lemma fragments_from_proper L cuts : forall start,
  Forall proper (fragments_from L start cuts).
Proof.
  unfold proper.
  induction cuts as [ | [s e] rest IH]; intros start; simpl.
  - destruct (ltb start L) eqn:E; constructor; [ | constructor].
    simpl. apply ltb_lt, E.
  - apply Forall_app. split.
    + destruct (ltb start s) eqn:E; constructor; [ | constructor].
      simpl. apply ltb_lt, E.
    + destruct (leb L (pymax start e)); [constructor | apply IH].
Qed.

(** No fragment starts before the cursor. *)
Lemma fragments_from_lower L cuts : forall start,
  Forall (fun f => start <= fst f) (fragments_from L start cuts).
Proof.
  induction cuts as [ | [s e] rest IH]; intros start; simpl.
  - destruct (ltb start L); constructor; [simpl; lra | constructor].
  - apply Forall_app. split.
    + destruct (ltb start s); constructor; [simpl; lra | constructor].
    + destruct (leb L (pymax start e)); [constructor | ].
      eapply Forall_impl; [ | apply IH]. simpl. intros f Hf.
      pose proof (pymax_lub start e). lra.
Qed.

Lemma fragments_from_sorted L cuts : forall start,
  Forall (fun c : Cut => fst c <= snd c) cuts ->
  StronglySorted before (fragments_from L start cuts).
Proof.
  induction cuts as [ | [s e] rest IH]; intros start Hc; simpl.
  - destruct (ltb start L); repeat constructor.
  - inversion Hc as [ | ? ? Hse Hrest]; subst. simpl in Hse.
    assert (T : StronglySorted before
      (if leb L (pymax start e) then []
       else fragments_from L (pymax start e) rest)).
    { destruct (leb L (pymax start e)); [constructor | apply IH, Hrest]. }
    destruct (ltb start s); simpl; [ | exact T].
    constructor; [exact T | ].
    destruct (leb L (pymax start e)); [constructor | ].
    eapply Forall_impl; [ | apply fragments_from_lower].
    unfold before. simpl. intros f Hf.
    pose proof (pymax_lub start e). lra.
Qed.

(** C9 (as amended).  Every emitted fragment has [start < end], for any
    cut list; and when every cut pair has [start <= end] (as in every
    normalized list) the fragments are ordered and pairwise disjoint: each
    fragment ends no later than every later fragment starts. *)
Theorem fragments_proper_and_ordered cuts L :
  Forall proper (cuts_to_fragments cuts L)
  /\ (Forall (fun c : Cut => fst c <= snd c) cuts ->
      StronglySorted before (cuts_to_fragments cuts L)).
Proof.
  rewrite cuts_to_fragments_from. split.
  - apply fragments_from_proper.
  - apply fragments_from_sorted.
Qed.

Lemma fragments_proper_and_ordered_witness :
  Forall (fun c : Cut => fst c <= snd c) [(20, 30); (10, 15)] /\
  StronglySorted before (cuts_to_fragments [(20, 30); (10, 15)] 100).
Proof.
  assert (H : Forall (fun c : Cut => fst c <= snd c) [(20, 30); (10, 15)]).
  { repeat constructor; simpl; lra. }
  split; [exact H | ].
  exact (proj2 (fragments_proper_and_ordered [(20, 30); (10, 15)] 100) H).
Defined.

(** C9 fails as stated: with the inverted pair [(10, 5)] the first
    fragment ends at 10 and the second starts at 5. *)
Lemma fragments_overlap_on_inverted_cut :
  cuts_to_fragments [(10, 5); (20, 30)] 100 = [(0, 10); (5, 20); (30, 100)]
  /\ ~ StronglySorted before (cuts_to_fragments [(10, 5); (20, 30)] 100).
Proof.
  split; [reflexivity | ].
  change (cuts_to_fragments [(10, 5); (20, 30)] 100)
    with [(0, 10); (5, 20); (30, 100)].
  intro H. inversion H as [ | ? ? _ F]; subst.
  inversion F as [ | ? ? B _]; subst. unfold before in B. simpl in B. lra.
Qed.

(** In a normalized list whose first interval starts at or after [lo],
    every interval does. *)
Lemma is_normalized_lower lo cuts :
  is_normalized cuts = true ->
  match cuts with [] => True | c :: _ => lo <= fst c end ->
  Forall (fun c => lo <= fst c) cuts.
Proof.
  destruct cuts as [ | [s e] rest]; intros Hn Hlo; [constructor | ].
  simpl in Hlo. constructor; [exact Hlo | ].
  pose proof (is_normalized_cons _ _ _ Hn) as [Hse _].
  eapply Forall_impl; [ | apply (is_normalized_gap rest s e Hn)].
  simpl. intros c Hc. unfold eps9 in Hc. lra.
Qed.

(** No fragment shares a stretch of time with a cut. *)
Lemma fragments_from_apart L cuts : forall start,
  is_normalized cuts = true ->
  forall f c, In f (fragments_from L start cuts) -> In c cuts -> apart f c.
Proof.
  induction cuts as [ | [s e] rest IH]; intros start Hn f c Hf Hc;
    [destruct Hc | ].
  pose proof (is_normalized_cons _ _ _ Hn) as [Hse [Hrest _]].
  pose proof (is_normalized_gap rest s e Hn) as Hgap.
  rewrite Forall_forall in Hgap.
  simpl in Hf. apply in_app_iff in Hf. destruct Hf as [Hf | Hf].
  - destruct (ltb start s); [ | destruct Hf].
    destruct Hf as [<- | []]. left. simpl.
    destruct Hc as [<- | Hc]; simpl; [lra | ].
    specialize (Hgap c Hc). unfold eps9 in Hgap. lra.
  - destruct (leb L (pymax start e)); [destruct Hf | ].
    destruct Hc as [<- | Hc].
    + right. simpl.
      pose proof (fragments_from_lower L rest (pymax start e)) as Hl.
      rewrite Forall_forall in Hl. specialize (Hl f Hf). simpl in Hl.
      pose proof (pymax_lub start e). lra.
    + apply (IH (pymax start e) Hrest f c Hf Hc).
Qed.

(** The fragments and the cuts cover exactly the times from the cursor
    to the end of the audio. *)
Lemma fragments_from_cover L cuts : forall start,
  is_normalized cuts = true ->
  Forall (fun c => start <= fst c /\ snd c <= L) cuts ->
  forall x, (start <= x /\ x < L) <->
    exists c, In c (fragments_from L start cuts ++ cuts) /\ inside x c.
Proof.
  unfold inside.
  induction cuts as [ | [s e] rest IH]; intros start Hn Hb x.
  - simpl. rewrite app_nil_r. destruct (ltb start L) eqn:E; order_facts.
    + split.
      * intros [H1 H2]. exists (start, L). simpl. auto.
      * intros [c [[<- | []] [H1 H2]]]. simpl in *. auto.
    + split.
      * intros [H1 H2]. exfalso. lra.
      * intros [c [[] _]].
  - pose proof (is_normalized_cons _ _ _ Hn) as [Hse [Hrest _]].
    pose proof (is_normalized_gap rest s e Hn) as Hgap.
    inversion Hb as [ | ? ? [Hs He] Hb']; subst. simpl in Hs, He.
    assert (Em : pymax start e = e).
    { destruct (pymax_cases start e) as [[_ G] | [G _]]; [exact G | lra]. }
    assert (Hb2 : Forall (fun c => e <= fst c /\ snd c <= L) rest).
    { rewrite Forall_forall in *. intros c Hc.
      specialize (Hgap c Hc). specialize (Hb' c Hc).
      unfold eps9 in Hgap. split; [lra | tauto]. }
    specialize (IH e Hrest Hb2 x).
    simpl. rewrite Em. split.
    + intros [H1 H2].
      destruct (Qlt_le_dec x s) as [Hxs | Hxs].
      * exists (start, s). simpl. split; [ | auto].
        assert (E : ltb start s = true) by (apply ltb_lt; lra).
        rewrite E. simpl. auto.
      * destruct (Qlt_le_dec x e) as [Hxe | Hxe].
        { exists (s, e). simpl. split; [ | auto].
          rewrite !in_app_iff. simpl. auto. }
        destruct (proj1 IH (conj Hxe H2)) as [c [Hc Hin]].
        exists c. split; [ | exact Hin].
        assert (E : leb L e = false) by (apply leb_gt; lra).
        rewrite E. rewrite !in_app_iff in *. simpl. tauto.
    + intros [c [Hc [H1 H2]]].
      rewrite !in_app_iff in Hc. simpl in Hc.
      destruct Hc as [[Hc | Hc] | [<- | Hc]].
      * destruct (ltb start s) eqn:E; [ | destruct Hc].
        destruct Hc as [<- | []]. simpl in *. lra.
      * destruct (leb L e); [destruct Hc | ].
        assert (G : e <= x /\ x < L).
        { apply IH. exists c. rewrite in_app_iff. auto. }
        lra.
      * simpl in *. lra.
      * rewrite Forall_forall in Hb2. specialize (Hb2 c Hc). lra.
Qed.

(** C3 (as amended).  For a normalized cut list whose intervals lie
    within [[0, audio_orig_len]], the fragments returned by
    [cuts_to_fragments] together with the cuts tile that range: a time
    lies in [[0, audio_orig_len)] exactly when it lies in a fragment or in a
    cut (intervals taken closed on the left, open on the right); the
    fragments are non-empty and ordered, each ending no later than every
    later one starts; and no fragment overlaps a cut. *)
Theorem fragments_and_cuts_tile cuts L :
  is_normalized cuts = true ->
  Forall (fun c => 0 <= fst c /\ snd c <= L) cuts ->
  (forall x, (0 <= x /\ x < L) <->
     exists c, In c (cuts_to_fragments cuts L ++ cuts) /\ inside x c)
  /\ Forall proper (cuts_to_fragments cuts L)
  /\ StronglySorted before (cuts_to_fragments cuts L)
  /\ (forall f c, In f (cuts_to_fragments cuts L) -> In c cuts -> apart f c).
Proof.
  intros Hn Hb. rewrite cuts_to_fragments_from.
  split; [ | split; [ | split]].
  - apply (fragments_from_cover L cuts 0 Hn Hb).
  - apply fragments_from_proper.
  - apply fragments_from_sorted, proper_ordered, is_normalized_proper, Hn.
  - apply fragments_from_apart, Hn.
Qed.

Lemma fragments_and_cuts_tile_witness :
  is_normalized [(10, 20); (50, 60)] = true /\
  Forall (fun c => 0 <= fst c /\ snd c <= 100) [(10, 20); (50, 60)] /\
  ((forall x, (0 <= x /\ x < 100) <->
      exists c,
        In c (cuts_to_fragments [(10, 20); (50, 60)] 100
              ++ [(10, 20); (50, 60)]) /\ inside x c)
   /\ Forall proper (cuts_to_fragments [(10, 20); (50, 60)] 100)
   /\ StronglySorted before (cuts_to_fragments [(10, 20); (50, 60)] 100)
   /\ (forall f c, In f (cuts_to_fragments [(10, 20); (50, 60)] 100) ->
         In c [(10, 20); (50, 60)] -> apart f c)).
Proof.
  assert (H : Forall (fun c => 0 <= fst c /\ snd c <= 100)
                [(10, 20); (50, 60)]).
  { repeat constructor; simpl; lra. }
  split; [reflexivity | split; [exact H | ]].
  exact (fragments_and_cuts_tile [(10, 20); (50, 60)] 100 eq_refl H).
Defined.

(** C3 fails as stated: for the normalized list [[(90, 110)]] and an
    audio of 100 seconds, the time 105 lies in a cut but not in
    [[0, 100)], so fragments and cuts do not tile that range. *)
Lemma cut_beyond_audio_breaks_tiling :
  is_normalized [(90, 110)] = true
  /\ cuts_to_fragments [(90, 110)] 100 = [(0, 90)]
  /\ ~ (forall x, (0 <= x /\ x < 100) <->
          exists c, In c (cuts_to_fragments [(90, 110)] 100 ++ [(90, 110)])
                    /\ inside x c).
Proof.
  split; [reflexivity | split; [reflexivity | ]].
  intro H. specialize (H 105).
  assert (G : 0 <= 105 /\ 105 < 100).
  { apply H. exists (90, 110). split.
    - right. left. reflexivity.
    - unfold inside. simpl. lra. }
  lra.
Qed.

(** ** Snapping an event that falls inside a cut *)




Lemma cut_loop_after t0 post : forall removed,
  Forall (fun c => proper c /\ t0 <= fst c) post ->
  fold_left (cut_step t0) post removed = removed.
Proof.
  unfold proper.
  induction post as [ | [s e] post IH]; intros removed H; simpl.
  - reflexivity.
  - inversion H as [ | ? ? [H1 H2] H3]; subst. simpl in H1, H2.
    assert (E1 : leb e t0 = false) by (apply leb_gt; lra).
    assert (E2 : ltb s t0 = false) by (apply ltb_ge; lra).
    rewrite E1, E2. simpl. apply IH, H3.
Qed.







(** * Further properties of the timeline core *)

(** ** Bounds on the removed duration *)

Lemma cut_step_bounds t0 removed c :
  fst c <= snd c ->
  removed <= cut_step t0 removed c
  /\ cut_step t0 removed c <= removed + (snd c - fst c).
Proof.
  destruct c as [s e]. simpl. intro H. unfold cut_step.
  destruct (leb e t0) eqn:?, (ltb s t0) eqn:?, (ltb t0 e) eqn:?;
    simpl; order_facts; split; lra.
Qed.

Lemma cut_loop_bounds t0 cuts : forall removed,
  Forall (fun c : Cut => fst c <= snd c) cuts ->
  removed <= fold_left (cut_step t0) cuts removed
  /\ fold_left (cut_step t0) cuts removed <= removed + total_duration cuts.
Proof.
  induction cuts as [ | c rest IH]; intros removed H; simpl.
  - split; lra.
  - inversion H as [ | ? ? Hc Hrest]; subst.
    destruct (cut_step_bounds t0 removed c Hc) as [B1 B2].
    destruct (IH (cut_step t0 removed c) Hrest) as [B3 B4].
    split; lra.
Qed.

(** Cuts that start at or after [lo] remove at most [t0 - lo] before a
    time [t0 >= lo]. *)
Lemma cut_loop_upper cuts : forall lo t0 removed,
  is_normalized cuts = true ->
  Forall (fun c => lo <= fst c) cuts ->
  lo <= t0 ->
  fold_left (cut_step t0) cuts removed <= removed + (t0 - lo).
Proof.
  induction cuts as [ | [s e] rest IH]; intros lo t0 removed Hn Hlo Ht; simpl.
  - lra.
  - pose proof (is_normalized_cons _ _ _ Hn) as [Hse [Hrest _]].
    pose proof (is_normalized_gap rest s e Hn) as Hgap.
    inversion Hlo as [ | ? ? Hs _]; subst. simpl in Hs.
    destruct (leb e t0) eqn:E1.
    + apply leb_le in E1.
      assert (G : Forall (fun c => e <= fst c) rest).
      { eapply Forall_impl; [ | exact Hgap]. simpl. intros c Hc.
        unfold eps9 in Hc. lra. }
      pose proof (IH e t0 (removed + (e - s)) Hrest G E1). lra.
    + apply leb_gt in E1.
      assert (G : Forall (fun c => proper c /\ t0 <= fst c) rest).
      { pose proof (is_normalized_proper _ Hrest) as Hp.
        rewrite Forall_forall in *. intros c Hc. split; [auto | ].
        specialize (Hgap c Hc). unfold eps9 in Hgap. lra. }
      rewrite (cut_loop_after t0 rest _ G).
      destruct (ltb s t0) eqn:E2, (ltb t0 e) eqn:E3; simpl; order_facts; lra.
Qed.

Lemma total_cut_before_nonneg cuts t0 :
  is_normalized cuts = true -> 0 <= total_cut_before t0 cuts.
Proof.
  intro Hn. unfold total_cut_before.
  apply (cut_loop_bounds t0 cuts 0).
  apply proper_ordered, is_normalized_proper, Hn.
Qed.

(** X1.  For a normalized cut list the removed duration is never
    negative, and it is exactly zero for a time at or before the start of
    every cut. *)
Theorem total_cut_before_never_negative cuts t0 :
  is_normalized cuts = true ->
  0 <= total_cut_before t0 cuts
  /\ (Forall (fun c : Cut => t0 <= fst c) cuts ->
      total_cut_before t0 cuts = 0).
Proof.
  intro Hn. split; [apply total_cut_before_nonneg, Hn | ].
  intro H. unfold total_cut_before. apply cut_loop_after.
  pose proof (is_normalized_proper _ Hn) as Hp.
  rewrite Forall_forall in *. intros c Hc. split; auto.
Qed.

Lemma total_cut_before_never_negative_witness :
  is_normalized [(10, 20); (50, 60)] = true /\
  Forall (fun c : Cut => 7 <= fst c) [(10, 20); (50, 60)] /\
  total_cut_before 7 [(10, 20); (50, 60)] = 0.
Proof.
  assert (H : Forall (fun c : Cut => 7 <= fst c) [(10, 20); (50, 60)]).
  { repeat constructor; vm_compute; discriminate. }
  split; [reflexivity | split; [exact H | ]].
  exact (proj2 (total_cut_before_never_negative [(10, 20); (50, 60)] 7
                  eq_refl) H).
Defined.

Lemma total_cut_before_le_time cuts t0 :
  is_normalized cuts = true ->
  Forall (fun c => 0 <= fst c) cuts -> 0 <= t0 ->
  total_cut_before t0 cuts <= t0
  /\ pymax 0 (t0 - total_cut_before t0 cuts) == t0 - total_cut_before t0 cuts.
Proof.
  intros Hn Hlo Ht. unfold total_cut_before.
  pose proof (cut_loop_upper cuts 0 t0 0 Hn Hlo Ht) as B.
  split; [lra | ].
  destruct (pymax_cases 0 (t0 - fold_left (cut_step t0) cuts 0))
    as [[_ ->] | [K ->]]; lra.
Qed.

(** X3.  When no cut of a normalized list starts before time zero, the
    duration removed before a time [t0 >= 0] is at most [t0]: the position
    on the cut axis is never negative, and the clamp at zero is idle. *)
Theorem total_cut_before_at_most_time cuts t0 :
  is_normalized cuts = true ->
  Forall (fun c => 0 <= fst c) cuts -> 0 <= t0 ->
  total_cut_before t0 cuts <= t0
  /\ pymax 0 (t0 - total_cut_before t0 cuts) == t0 - total_cut_before t0 cuts.
Proof.
  intros Hn Hlo Ht. exact (total_cut_before_le_time cuts t0 Hn Hlo Ht).
Qed.

Lemma total_cut_before_at_most_time_witness :
  is_normalized [(10, 20); (50, 60)] = true /\
  Forall (fun c => 0 <= fst c) [(10, 20); (50, 60)] /\ 0 <= 55 /\
  (total_cut_before 55 [(10, 20); (50, 60)] <= 55
   /\ pymax 0 (55 - total_cut_before 55 [(10, 20); (50, 60)])
      == 55 - total_cut_before 55 [(10, 20); (50, 60)]).
Proof.
  assert (H : Forall (fun c => 0 <= fst c) [(10, 20); (50, 60)]).
  { repeat constructor; simpl; lra. }
  split; [reflexivity | split; [exact H | split; [lra | ]]].
  apply (total_cut_before_at_most_time [(10, 20); (50, 60)] 55);
    [reflexivity | exact H | lra].
Defined.

(** ** Where [adjust_timeline] puts the events *)

(** Snapping moves a time later by less than [1e-9], if at all. *)
Lemma snap_upper t0 cuts : snap t0 cuts < t0 + eps9.
Proof.
  induction cuts as [ | [s e] rest IH].
  - simpl. unfold eps9. lra.
  - change (snap t0 ((s, e) :: rest))
      with (if (ltb s t0 && ltb t0 e) || ltb (Qabs (t0 - s)) eps9 then s
            else snap t0 rest).
    destruct ((ltb s t0 && ltb t0 e) || ltb (Qabs (t0 - s)) eps9) eqn:E;
      [ | exact IH].
    apply orb_true_iff in E. destruct E as [E | E].
    + order_facts. unfold eps9. lra.
    + apply ltb_lt in E. pose proof (Qle_Qabs (- (t0 - s))) as B.
      rewrite Qabs_opp in B. lra.
Qed.

Lemma clip_upper L x : 0 <= L -> clip L x <= L.
Proof.
  intro H. unfold clip.
  destruct (pymin_cases L x) as [[H1 ->] | [H1 ->]];
    [destruct (pymax_cases 0 x) as [[_ ->] | [_ ->]]
    | destruct (pymax_cases 0 L) as [[_ ->] | [_ ->]]]; lra.
Qed.

Lemma map_event_bounds cuts L ch :
  is_normalized cuts = true ->
  0 <= fst (map_event cuts L ch)
  /\ fst (map_event cuts L ch) < clip L (t ch) + eps9.
Proof.
  intro Hn. unfold map_event. simpl.
  set (t0 := snap (clip L (t ch)) cuts).
  pose proof (snap_upper (clip L (t ch)) cuts) as B1. fold t0 in B1.
  pose proof (clip_nonneg L (t ch)) as B2.
  pose proof (total_cut_before_nonneg cuts t0 Hn) as B3.
  destruct (pymax_cases 0 (t0 - total_cut_before t0 cuts))
    as [[K ->] | [K ->]]; unfold eps9 in *; split; lra.
Qed.

(** X4.  Every time in the output of [adjust_timeline] is at least zero,
    and for a non-negative audio length it is below that length plus
    [1e-9]: cuts move events earlier, and snapping moves one later by less
    than [1e-9]. *)
Theorem adjust_timeline_times_in_range changes cuts L tp :
  In tp (adjust_timeline changes cuts L) ->
  0 <= fst tp /\ (0 <= L -> fst tp < L + eps9).
Proof.
  intro H. apply adjust_timeline_In in H. destruct H as [ch [_ ->]].
  destruct (map_event_bounds (normalize_cuts cuts) L ch
              (normalize_cuts_normalized cuts)) as [B1 B2].
  split; [exact B1 | ]. intro HL.
  pose proof (clip_upper L (t ch) HL). lra.
Qed.

Lemma adjust_timeline_times_in_range_witness :
  In (10, 1%Z)
     (adjust_timeline [mkSlideChange 22 (Some 1%Z)] [(10, 20); (19, 25)] 100)
  /\ 0 <= 100
  /\ 0 <= fst (10, 1%Z) /\ fst (10, 1%Z) < 100 + eps9.
Proof.
  assert (H : In (10, 1%Z)
    (adjust_timeline [mkSlideChange 22 (Some 1%Z)] [(10, 20); (19, 25)] 100)).
  { vm_compute. left. reflexivity. }
  assert (HL : 0 <= 100) by lra.
  split; [exact H | split; [exact HL | ]].
  destruct (adjust_timeline_times_in_range _ _ _ _ H) as [B1 B2].
  split; [exact B1 | exact (B2 HL)].
Defined.

Lemma strict_from_spaced_above adjusted : forall last_t,
  Forall (fun x => last_t + eps6 < fst x) (strict_from last_t adjusted).
Proof.
  induction adjusted as [ | y rest IH]; intros last_t; simpl; [constructor | ].
  destruct (ltb (last_t + eps6) (fst y)) eqn:E; [ | apply IH].
  order_facts. constructor; [exact E | ].
  eapply Forall_impl; [ | apply IH]. simpl. intros z Hz.
  unfold eps6 in *. lra.
Qed.

Lemma strict_from_spaced adjusted : forall last_t,
  StronglySorted spaced (strict_from last_t adjusted).
Proof.
  induction adjusted as [ | y rest IH]; intros last_t; simpl; [constructor | ].
  destruct (ltb (last_t + eps6) (fst y)); [ | apply IH].
  constructor; [apply IH | apply strict_from_spaced_above].
Qed.

(** X5.  Any two entries of [adjust_timeline]'s output are more than
    [1e-6] apart in time, the earlier one first. *)
Theorem adjust_timeline_spaced changes cuts L :
  StronglySorted spaced (adjust_timeline changes cuts L).
Proof.
  unfold adjust_timeline. rewrite strict_pass_from. apply strict_from_spaced.
Qed.

(** The sort by key leaves the times in ascending order. *)
Lemma sort_key_ascending l :
  StronglySorted (fun x y : Q * Z => fst x <= fst y) (sort key_lt l).
Proof.
  assert (T : StronglySorted key_le (sort key_lt l)).
  { apply Sorted_StronglySorted; [ | apply (sort_sorted key_lt key_lt_asym)].
    intros x y z. unfold key_le, key_lt. intros H1 H2. order_facts.
    apply ltb_ge. lra. }
  induction T as [ | x r _ IH F]; constructor; [exact IH | ].
  eapply Forall_impl; [ | exact F]. unfold key_le, key_lt.
  intros y Hy. apply ltb_ge in Hy. exact Hy.
Qed.

(** On an ascending list, an event the pass drops lies within [1e-6]
    after the last kept time. *)
Lemma strict_from_near adjusted : forall last_t,
  StronglySorted (fun x y : Q * Z => fst x <= fst y) adjusted ->
  Forall (fun x => last_t <= fst x) adjusted ->
  forall x, In x adjusted ->
    (last_t <= fst x /\ fst x <= last_t + eps6)
    \/ exists y, In y (strict_from last_t adjusted)
                 /\ fst y <= fst x /\ fst x <= fst y + eps6.
Proof.
  induction adjusted as [ | a rest IH]; intros last_t Hs Hl x Hx;
    [destruct Hx | ].
  inversion Hs as [ | ? ? Hs' Ha]; subst.
  inversion Hl as [ | ? ? Hla Hl']; subst.
  simpl. destruct (ltb (last_t + eps6) (fst a)) eqn:E.
  - right. destruct Hx as [<- | Hx].
    + exists a. split; [left; reflexivity | unfold eps6; lra].
    + destruct (IH (fst a) Hs' Ha x Hx) as [[B1 B2] | [y [Hy [B1 B2]]]].
      * exists a. split; [left; reflexivity | split; assumption].
      * exists y. split; [right; exact Hy | split; assumption].
  - apply ltb_ge in E. destruct Hx as [<- | Hx].
    + left. split; assumption.
    + apply (IH last_t Hs' Hl' x Hx).
Qed.

(** X6.  No event disappears without a trace: for every input event the
    output of [adjust_timeline] has an entry at, or at most [2e-6] before,
    the event's mapped time.  (The pass drops an event that is within
    [1e-6] of the last kept time; the bound leaves room for the rounding of
    that sum in double arithmetic.) *)
Theorem adjust_timeline_keeps_a_neighbour changes cuts L ch :
  In ch changes ->
  exists y, In y (adjust_timeline changes cuts L)
    /\ fst y <= fst (map_event (normalize_cuts cuts) L ch)
    /\ fst (map_event (normalize_cuts cuts) L ch) <= fst y + 2 * eps6.
Proof.
  intro H. unfold adjust_timeline. rewrite strict_pass_from.
  set (f := map_event (normalize_cuts cuts) L).
  assert (Hpos : forall x, In x (sort key_lt (map f changes)) -> 0 <= fst x).
  { intros x Hx. apply sort_In, in_map_iff in Hx.
    destruct Hx as [c [<- _]].
    apply (map_event_bounds _ L c (normalize_cuts_normalized cuts)). }
  assert (Hin : In (f ch) (sort key_lt (map f changes))).
  { apply sort_In, in_map. exact H. }
  destruct (strict_from_near (sort key_lt (map f changes)) minus_1e9
              (sort_key_ascending _)) with (x := f ch)
    as [[_ B] | [y [Hy [B1 B2]]]]; [ | exact Hin | | ].
  - apply Forall_forall. intros x Hx. specialize (Hpos x Hx).
    unfold minus_1e9. lra.
  - specialize (Hpos _ Hin). unfold minus_1e9, eps6 in B. lra.
  - exists y. split; [exact Hy | ]. split; [exact B1 | ].
    unfold eps6 in *. lra.
Qed.

Lemma adjust_timeline_keeps_a_neighbour_witness :
  In (mkSlideChange 23 (Some 2%Z))
     [mkSlideChange 22 (Some 1%Z); mkSlideChange 23 (Some 2%Z)] /\
  exists y,
    In y (adjust_timeline
            [mkSlideChange 22 (Some 1%Z); mkSlideChange 23 (Some 2%Z)]
            [(10, 20); (19, 25)] 100)
    /\ fst y <= fst (map_event (normalize_cuts [(10, 20); (19, 25)]) 100
                       (mkSlideChange 23 (Some 2%Z)))
    /\ fst (map_event (normalize_cuts [(10, 20); (19, 25)]) 100
              (mkSlideChange 23 (Some 2%Z))) <= fst y + 2 * eps6.
Proof.
  assert (H : In (mkSlideChange 23 (Some 2%Z))
                [mkSlideChange 22 (Some 1%Z); mkSlideChange 23 (Some 2%Z)]).
  { right. left. reflexivity. }
  split; [exact H | ].
  exact (adjust_timeline_keeps_a_neighbour _ [(10, 20); (19, 25)] 100 _ H).
Defined.

(** ** The cut list that [main] hands on *)

Lemma is_normalized_shift k cuts :
  is_normalized (map (map_cut k) cuts) = is_normalized cuts.
Proof.
  induction cuts as [ | [s e] rest IH]; [reflexivity | ].
  change (map (map_cut k) ((s, e) :: rest))
    with ((s + k, e + k) :: map (map_cut k) rest).
  change (is_normalized ((s + k, e + k) :: map (map_cut k) rest))
    with (ltb (s + k) (e + k)
          && match map (map_cut k) rest with
             | [] => true
             | (s', _) :: _ => ltb (e + k + eps9) s'
             end
          && is_normalized (map (map_cut k) rest)).
  rewrite IH, ltb_shift. simpl. f_equal. f_equal.
  destruct rest as [ | [s' e'] r]; [reflexivity | ]. simpl.
  apply ltb_equiv. split; intro; lra.
Qed.

Lemma main_cuts_is_normalized skew parsed :
  is_normalized (main_cuts skew parsed) = true.
Proof.
  unfold main_cuts. destruct (negb (Qeq_bool skew 0)).
  - rewrite is_normalized_shift. apply normalize_cuts_normalized.
  - apply normalize_cuts_normalized.
Qed.

(** X8.  For any parsed cut pairs and any skew, the fragments that
    [main] asks to keep are non-empty, ordered with no overlap between
    them, and none of them overlaps a cut. *)
Theorem main_fragments_well_formed skew parsed L :
  Forall proper (cuts_to_fragments (main_cuts skew parsed) L)
  /\ StronglySorted before (cuts_to_fragments (main_cuts skew parsed) L)
  /\ (forall f c, In f (cuts_to_fragments (main_cuts skew parsed) L) ->
        In c (main_cuts skew parsed) -> apart f c).
Proof.
  pose proof (main_cuts_is_normalized skew parsed) as H.
  rewrite cuts_to_fragments_from. split; [ | split].
  - apply fragments_from_proper.
  - apply fragments_from_sorted, proper_ordered, is_normalized_proper, H.
  - apply fragments_from_apart, H.
Qed.

(** ** A timeline that needs no adjustment *)

Lemma sort_key_fixed l :
  StronglySorted time_lt l -> sort key_lt l = l.
Proof.
  induction 1 as [ | x r _ IH F]; [reflexivity | ].
  simpl. rewrite IH. destruct r as [ | y r']; [reflexivity | ].
  apply insert_head. inversion F as [ | ? ? Hxy _]; subst.
  unfold key_lt. apply ltb_ge. unfold time_lt in Hxy. lra.
Qed.

Lemma strict_from_fixed l : forall last_t,
  StronglySorted spaced l ->
  Forall (fun x => last_t + eps6 < fst x) l ->
  strict_from last_t l = l.
Proof.
  induction l as [ | x r IH]; intros last_t Hs Hl; [reflexivity | ].
  inversion Hs as [ | ? ? Hs' Hx]; subst.
  inversion Hl as [ | ? ? Hlx _]; subst.
  simpl. apply ltb_lt in Hlx. rewrite Hlx. f_equal.
  apply IH; assumption.
Qed.

(** X9.  With no cuts, a timeline whose times lie within
    [[0, audio_orig_len]] and increase by more than [2e-6] from each event
    to the next comes back unchanged: same events, same order, same times,
    pages as given (or [-1] where none was given).  (The pass keeps an
    event that is more than [1e-6] after the last kept one; the margin
    leaves room for the rounding of that sum in double arithmetic.) *)
Theorem adjust_timeline_identity changes L :
  StronglySorted (fun a b => t a + 2 * eps6 < t b) changes ->
  Forall (fun ch => 0 <= t ch /\ t ch <= L) changes ->
  Forall2 (fun ch out => fst out == t ch
                         /\ snd out = page_or_sentinel (page ch))
          changes (adjust_timeline changes [] L).
Proof.
  intros Hs Hr.
  set (f := fun ch => (clip L (t ch), page_or_sentinel (page ch))).
  assert (E : adjust_timeline changes [] L
              = strict_pass (sort key_lt (map f changes))).
  { unfold adjust_timeline. change (normalize_cuts []) with (@nil Cut).
    f_equal. f_equal. apply map_ext. intro ch. apply map_event_no_cuts. }
  assert (Hc : forall ch, In ch changes -> clip L (t ch) == t ch).
  { intros ch Hin. rewrite Forall_forall in Hr.
    destruct (Hr ch Hin) as [H1 H2].
    assert (HL : 0 <= L) by lra.
    apply (clip_range L (t ch) HL); assumption. }
  assert (Sp : StronglySorted spaced (map f changes)).
  { clear E Hr. induction Hs as [ | a r Hs' IH F]; simpl; [constructor | ].
    constructor.
    - apply IH. intros ch Hin. apply Hc. right. exact Hin.
    - apply Forall_forall. intros y Hy. apply in_map_iff in Hy.
      destruct Hy as [b [<- Hb]]. unfold spaced, f. simpl.
      rewrite Forall_forall in F. specialize (F b Hb).
      rewrite (Hc a (or_introl eq_refl)), (Hc b (or_intror Hb)).
      unfold eps6 in *. lra. }
  assert (St : StronglySorted time_lt (map f changes)).
  { clear - Sp. induction Sp as [ | x r _ IH F]; constructor; [exact IH | ].
    eapply Forall_impl; [ | exact F]. unfold spaced, time_lt, eps6.
    intros y Hy. lra. }
  assert (Hl : Forall (fun x => minus_1e9 + eps6 < fst x) (map f changes)).
  { apply Forall_forall. intros y Hy. apply in_map_iff in Hy.
    destruct Hy as [b [<- _]]. unfold f. simpl.
    pose proof (clip_nonneg L (t b)). unfold minus_1e9, eps6. lra. }
  rewrite E, (sort_key_fixed _ St), strict_pass_from,
    (strict_from_fixed _ _ Sp Hl).
  clear - Hc. induction changes as [ | a r IH]; simpl; constructor.
  - unfold f. simpl. split; [apply Hc; left | ]; reflexivity.
  - apply IH. intros ch Hin. apply Hc. right. exact Hin.
Qed.

Lemma adjust_timeline_identity_witness :
  StronglySorted (fun a b => t a + 2 * eps6 < t b)
    [mkSlideChange 5 (Some 1%Z); mkSlideChange 9 None] /\
  Forall (fun ch => 0 <= t ch /\ t ch <= 100)
    [mkSlideChange 5 (Some 1%Z); mkSlideChange 9 None] /\
  Forall2 (fun ch out => fst out == t ch
                         /\ snd out = page_or_sentinel (page ch))
    [mkSlideChange 5 (Some 1%Z); mkSlideChange 9 None]
    (adjust_timeline [mkSlideChange 5 (Some 1%Z); mkSlideChange 9 None]
       [] 100).
Proof.
  assert (H1 : StronglySorted (fun a b => t a + 2 * eps6 < t b)
                 [mkSlideChange 5 (Some 1%Z); mkSlideChange 9 None]).
  { repeat constructor; simpl; unfold eps6; lra. }
  assert (H2 : Forall (fun ch => 0 <= t ch /\ t ch <= 100)
                 [mkSlideChange 5 (Some 1%Z); mkSlideChange 9 None]).
  { repeat constructor; simpl; lra. }
  split; [exact H1 | split; [exact H2 | ]].
  exact (adjust_timeline_identity _ 100 H1 H2).
Defined.

(** ** Events outside every cut *)




(** ** How much audio is kept *)

Lemma total_duration_app l1 l2 :
  total_duration (l1 ++ l2) == total_duration l1 + total_duration l2.
Proof.
  induction l1 as [ | c l1 IH]; simpl; [lra | ]. rewrite IH. lra.
Qed.

Lemma fragments_from_duration L cuts : forall start,
  is_normalized cuts = true ->
  Forall (fun c => start <= fst c /\ snd c <= L) cuts ->
  start <= L ->
  total_duration (fragments_from L start cuts) + total_duration cuts
  == L - start.
Proof.
  induction cuts as [ | [s e] rest IH]; intros start Hn Hb Hs.
  - simpl. destruct (ltb start L) eqn:E; simpl; order_facts; lra.
  - pose proof (is_normalized_cons _ _ _ Hn) as [Hse [Hrest _]].
    pose proof (is_normalized_gap rest s e Hn) as Hgap.
    inversion Hb as [ | ? ? [H1 H2] Hb']; subst. simpl in H1, H2.
    assert (Em : pymax start e = e).
    { destruct (pymax_cases start e) as [[_ G] | [G _]]; [exact G | lra]. }
    assert (Hb2 : Forall (fun c => e <= fst c /\ snd c <= L) rest).
    { rewrite Forall_forall in *. intros c Hc.
      specialize (Hgap c Hc). specialize (Hb' c Hc).
      unfold eps9 in Hgap. split; [lra | tauto]. }
    specialize (IH e Hrest Hb2 H2).
    assert (Ea : total_duration (if ltb start s then [(start, s)] else [])
                 == s - start).
    { destruct (ltb start s) eqn:E; simpl; order_facts; lra. }
    change (fragments_from L start ((s, e) :: rest))
      with ((if ltb start s then [(start, s)] else [])
            ++ (if leb L (pymax start e) then []
                else fragments_from L (pymax start e) rest)).
    rewrite Em, total_duration_app, Ea.
    change (total_duration ((s, e) :: rest))
      with ((e - s) + total_duration rest).
    destruct (leb L e) eqn:E.
    + apply leb_le in E.
      assert (Er : rest = []).
      { destruct rest as [ | c r]; [reflexivity | exfalso].
        inversion Hb2 as [ | ? ? [G1 G2] _]; subst.
        inversion Hgap as [ | ? ? G3 _]; subst.
        pose proof (is_normalized_proper _ Hrest) as Hp.
        inversion Hp as [ | ? ? G4 _]; subst. unfold proper in G4.
        unfold eps9 in G3. lra. }
      subst rest. simpl. lra.
    + lra.
Qed.

(** X11.  For a normalized cut list whose intervals lie within
    [[0, audio_orig_len]], the kept fragments and the cuts together last
    exactly as long as the audio: the kept audio lasts the original
    duration minus the total duration of the cuts. *)
Theorem kept_duration cuts L :
  is_normalized cuts = true ->
  Forall (fun c => 0 <= fst c /\ snd c <= L) cuts ->
  0 <= L ->
  total_duration (cuts_to_fragments cuts L) == L - total_duration cuts.
Proof.
  intros Hn Hb HL. rewrite cuts_to_fragments_from.
  pose proof (fragments_from_duration L cuts 0 Hn Hb HL). lra.
Qed.

Lemma kept_duration_witness :
  is_normalized [(10, 20); (50, 60)] = true /\
  Forall (fun c => 0 <= fst c /\ snd c <= 100) [(10, 20); (50, 60)] /\
  0 <= 100 /\
  total_duration (cuts_to_fragments [(10, 20); (50, 60)] 100)
  == 100 - total_duration [(10, 20); (50, 60)].
Proof.
  assert (H : Forall (fun c => 0 <= fst c /\ snd c <= 100)
                [(10, 20); (50, 60)]).
  { repeat constructor; vm_compute; discriminate. }
  assert (HL : 0 <= 100) by (vm_compute; discriminate).
  split; [reflexivity | split; [exact H | split; [exact HL | ]]].
  exact (kept_duration [(10, 20); (50, 60)] 100 eq_refl H HL).
Defined.

Lemma fragments_from_upper L cuts : forall start,
  Forall (fun c => fst c <= L) cuts ->
  Forall (fun f => snd f <= L) (fragments_from L start cuts).
Proof.
  induction cuts as [ | [s e] rest IH]; intros start H; simpl.
  - destruct (ltb start L); constructor; [simpl; lra | constructor].
  - inversion H as [ | ? ? H1 H2]; subst. simpl in H1.
    apply Forall_app. split.
    + destruct (ltb start s); constructor; [exact H1 | constructor].
    + destruct (leb L (pymax start e)); [constructor | apply IH, H2].
Qed.

(** X12.  No fragment starts before time zero, whatever the cut list;
    and when no cut starts after the end of the audio, no fragment ends
    after it either. *)
Theorem fragments_within_audio cuts L :
  Forall (fun f => 0 <= fst f) (cuts_to_fragments cuts L)
  /\ (Forall (fun c => fst c <= L) cuts ->
      Forall (fun f => snd f <= L) (cuts_to_fragments cuts L)).
Proof.
  rewrite cuts_to_fragments_from. split.
  - apply fragments_from_lower.
  - apply fragments_from_upper.
Qed.

Lemma fragments_within_audio_witness :
  Forall (fun c : Cut => fst c <= 100) [(90, 110); (30, 20)] /\
  Forall (fun f => snd f <= 100) (cuts_to_fragments [(90, 110); (30, 20)] 100).
Proof.
  assert (H : Forall (fun c : Cut => fst c <= 100) [(90, 110); (30, 20)]).
  { repeat constructor; vm_compute; discriminate. }
  split; [exact H | ].
  exact (proj2 (fragments_within_audio [(90, 110); (30, 20)] 100) H).
Defined.

(** ** What [normalize_cuts] covers *)

(** The sort of the segments leaves the starts in ascending order. *)
Lemma sort_tuple_ascending l :
  StronglySorted (fun a b : Cut => fst a <= fst b) (sort tuple_lt l).
Proof.
  apply Sorted_StronglySorted; [intros x y z H1 H2; lra | ].
  pose proof (sort_sorted tuple_lt tuple_lt_asym l) as H.
  induction H as [ | x r _ IH Hd]; constructor; [exact IH | ].
  destruct Hd as [ | y r' Hxy]; constructor.
  unfold tuple_lt in Hxy.
  destruct (Qeq_bool (fst y) (fst x)) eqn:E.
  - apply Qeq_bool_eq in E. lra.
  - apply ltb_ge in Hxy. exact Hxy.
Qed.

Lemma merge_from_covers segs : forall cur,
  Forall (fun c => fst cur <= fst c) segs ->
  StronglySorted (fun a b : Cut => fst a <= fst b) segs ->
  forall x, covers cur x \/ In x segs ->
    exists o, In o (merge_from cur segs) /\ covers o x.
Proof.
  unfold covers.
  induction segs as [ | seg rest IH]; intros [s e] Hlo Hs x Hx; simpl in *.
  - destruct Hx as [Hx | []]. exists (s, e). split; [left; reflexivity | ].
    exact Hx.
  - inversion Hlo as [ | ? ? H1 H2]; subst.
    inversion Hs as [ | ? ? Hs' Hseg]; subst.
    destruct (ltb (e + eps9) (fst seg)).
    + destruct Hx as [Hx | Hx].
      * exists (s, e). split; [left; reflexivity | exact Hx].
      * destruct (IH seg Hseg Hs' x) as [o [Ho Hc]].
        { destruct Hx as [<- | Hx]; [left; split; lra | right; exact Hx]. }
        exists o. split; [right; exact Ho | exact Hc].
    + pose proof (pymax_lub e (snd seg)) as [B1 B2].
      apply (IH (s, pymax e (snd seg))); [exact H2 | exact Hs' | ].
      simpl. destruct Hx as [[Hx1 Hx2] | [<- | Hx]].
      * left. split; lra.
      * left. split; lra.
      * right. exact Hx.
Qed.

(** X13.  No cut is lost by normalization: every input pair with two
    different values, read as the interval from its smaller to its larger
    value, is contained in one interval of [normalize_cuts]'s result. *)
Theorem normalize_cuts_covers_input cuts c :
  In c cuts ->
  pymin (fst c) (snd c) < pymax (fst c) (snd c) ->
  exists o, In o (normalize_cuts cuts)
    /\ fst o <= pymin (fst c) (snd c) /\ pymax (fst c) (snd c) <= snd o.
Proof.
  intros Hin Hp.
  set (x := (pymin (fst c) (snd c), pymax (fst c) (snd c))).
  assert (Hx : In x (sort tuple_lt (segments cuts))).
  { apply sort_In. unfold segments. apply in_map_iff. exists c.
    split; [reflexivity | ]. apply filter_In. split; [exact Hin | ].
    apply ltb_lt, Hp. }
  rewrite normalize_cuts_from.
  pose proof (sort_tuple_ascending (segments cuts)) as Hs.
  destruct (sort tuple_lt (segments cuts)) as [ | cur rest]; [destruct Hx | ].
  inversion Hs as [ | ? ? Hs' Hlo]; subst.
  destruct (merge_from_covers rest cur Hlo Hs' x) as [o [Ho Hc]].
  - destruct Hx as [<- | Hx]; [left; unfold covers; split; lra | right].
    exact Hx.
  - exists o. split; [exact Ho | exact Hc].
Qed.

Lemma normalize_cuts_covers_input_witness :
  In (25, 19) [(10, 20); (25, 19)] /\
  pymin (fst (25, 19)) (snd (25, 19)) < pymax (fst (25, 19)) (snd (25, 19)) /\
  exists o, In o (normalize_cuts [(10, 20); (25, 19)])
    /\ fst o <= pymin (fst (25, 19)) (snd (25, 19))
    /\ pymax (fst (25, 19)) (snd (25, 19)) <= snd o.
Proof.
  assert (H1 : In (25, 19) [(10, 20); (25, 19)]).
  { right. left. reflexivity. }
  assert (H2 : pymin (fst (25, 19)) (snd (25, 19))
               < pymax (fst (25, 19)) (snd (25, 19))).
  { vm_compute. reflexivity. }
  split; [exact H1 | split; [exact H2 | ]].
  exact (normalize_cuts_covers_input [(10, 20); (25, 19)] (25, 19) H1 H2).
Defined.




(** ** The order of the input pairs does not matter *)

Section SortPermutation.
Context {A : Type} (lt : A -> A -> bool) (eqv : A -> A -> Prop).
Hypothesis eqv_refl : forall x, eqv x x.
Hypothesis eqv_trans : forall x y z, eqv x y -> eqv y z -> eqv x z.
Hypothesis lt_asym : forall x y, lt x y = true -> lt y x = false.
Hypothesis lt_between :
  forall x y z, lt z y = false -> lt z x = true -> lt y x = true.
Hypothesis lt_neither : forall x y, lt x y = false -> lt y x = false -> eqv x y.
Hypothesis lt_eqv : forall x y z, eqv x y -> lt x z = lt y z.

Lemma Forall2_eqv_refl l : Forall2 eqv l l.
Proof. induction l; constructor; auto. Qed.

Lemma Forall2_eqv_trans l1 : forall l2 l3,
  Forall2 eqv l1 l2 -> Forall2 eqv l2 l3 -> Forall2 eqv l1 l3.
Proof.
  induction l1 as [ | x l1 IH]; intros l2 l3 H1 H2.
  - inversion H1; subst. inversion H2; subst. constructor.
  - inversion H1; subst. inversion H2; subst. constructor; eauto.
Qed.

Lemma insert_eqv x l l' :
  Forall2 eqv l l' -> Forall2 eqv (insert lt x l) (insert lt x l').
Proof.
  induction 1 as [ | y y' l l' Hy Hl IH]; simpl.
  - constructor; [apply eqv_refl | constructor].
  - rewrite (lt_eqv y y' x Hy). destruct (lt y' x).
    + constructor; assumption.
    + constructor; [apply eqv_refl | constructor; assumption].
Qed.

Lemma insert_insert x y l :
  Forall2 eqv (insert lt x (insert lt y l)) (insert lt y (insert lt x l)).
Proof.
  induction l as [ | z l IH]; simpl.
  - destruct (lt y x) eqn:E1; simpl.
    + rewrite (lt_asym _ _ E1). apply Forall2_eqv_refl.
    + destruct (lt x y) eqn:E2; [apply Forall2_eqv_refl | ].
      pose proof (lt_neither _ _ E2 E1) as H.
      constructor; [exact H | ]. constructor; [ | constructor].
      apply (lt_neither _ _ E1 E2).
  - destruct (lt z y) eqn:Ezy, (lt z x) eqn:Ezx; simpl; rewrite ?Ezy, ?Ezx.
    + constructor; [apply eqv_refl | exact IH].
    + rewrite (lt_between _ _ _ Ezx Ezy). apply Forall2_eqv_refl.
    + rewrite (lt_between _ _ _ Ezy Ezx). apply Forall2_eqv_refl.
    + destruct (lt y x) eqn:E1.
      * rewrite (lt_asym _ _ E1). apply Forall2_eqv_refl.
      * destruct (lt x y) eqn:E2; [apply Forall2_eqv_refl | ].
        constructor; [apply (lt_neither _ _ E2 E1) | ].
        constructor; [apply (lt_neither _ _ E1 E2) | ].
        apply Forall2_eqv_refl.
Qed.

Lemma sort_permuted l l' :
  Permutation l l' -> Forall2 eqv (sort lt l) (sort lt l').
Proof.
  induction 1 as [ | x l l' _ IH | x y l | l1 l2 l3 _ IH1 _ IH2]; simpl.
  - constructor.
  - apply insert_eqv, IH.
  - apply insert_insert.
  - apply (Forall2_eqv_trans _ _ _ IH1 IH2).
Qed.
End SortPermutation.

Lemma same_cut_trans x y z : same_cut x y -> same_cut y z -> same_cut x z.
Proof. unfold same_cut. intros [H1 H2] [H3 H4]. split; lra. Qed.

Lemma tuple_lt_equiv x x' y y' :
  same_cut x x' -> same_cut y y' -> tuple_lt x y = tuple_lt x' y'.
Proof.
  unfold same_cut, tuple_lt. intros [H1 H2] [H3 H4].
  rewrite (Qeq_bool_equiv (fst x) (fst y) (fst x') (fst y'))
    by (split; intro; lra).
  rewrite (ltb_equiv (snd x) (snd y) (snd x') (snd y'))
    by (split; intro; lra).
  rewrite (ltb_equiv (fst x) (fst y) (fst x') (fst y'))
    by (split; intro; lra).
  reflexivity.
Qed.

Lemma Qeq_bool_false_cases a b : Qeq_bool a b = false -> a < b \/ b < a.
Proof.
  intro H. apply Qeq_bool_neq in H.
  destruct (Q_dec a b) as [[G | G] | G]; [left | right | ]; try exact G.
  contradiction.
Qed.

Lemma tuple_lt_between x y z :
  tuple_lt z y = false -> tuple_lt z x = true -> tuple_lt y x = true.
Proof.
  unfold tuple_lt.
  destruct (Qeq_bool (fst z) (fst y)) eqn:E1,
    (Qeq_bool (fst z) (fst x)) eqn:E2,
    (Qeq_bool (fst y) (fst x)) eqn:E3;
    intros H1 H2; order_facts;
    repeat match goal with
    | H : Qeq_bool _ _ = true |- _ => apply Qeq_bool_eq in H
    | H : Qeq_bool _ _ = false |- _ =>
        apply Qeq_bool_false_cases in H; destruct H
    end;
    first [apply ltb_lt; lra | exfalso; lra].
Qed.

Lemma tuple_lt_neither x y :
  tuple_lt x y = false -> tuple_lt y x = false -> same_cut x y.
Proof.
  unfold tuple_lt, same_cut.
  rewrite (Qeq_bool_equiv (fst y) (fst x) (fst x) (fst y))
    by (split; intro; lra).
  destruct (Qeq_bool (fst x) (fst y)) eqn:E; intros H1 H2; order_facts.
  - apply Qeq_bool_eq in E. split; lra.
  - apply Qeq_bool_neq in E. exfalso. apply E. lra.
Qed.

Lemma segments_permuted cuts cuts' :
  Permutation cuts cuts' -> Permutation (segments cuts) (segments cuts').
Proof.
  unfold segments. intro H. apply Permutation_map.
  induction H as [ | x l l' _ IH | x y l | l1 l2 l3 _ IH1 _ IH2]; simpl.
  - constructor.
  - destruct (ltb _ _); [constructor | ]; exact IH.
  - destruct (ltb (pymin (fst x) (snd x)) (pymax (fst x) (snd x))),
      (ltb (pymin (fst y) (snd y)) (pymax (fst y) (snd y)));
      try reflexivity. apply perm_swap.
  - exact (perm_trans IH1 IH2).
Qed.

Lemma merge_from_same segs segs' :
  Forall2 same_cut segs segs' ->
  forall cur cur', same_cut cur cur' ->
  Forall2 same_cut (merge_from cur segs) (merge_from cur' segs').
Proof.
  unfold same_cut.
  induction 1 as [ | seg seg' r r' [H1 H2] _ IH];
    intros [s e] [s' e'] [H3 H4]; simpl in *.
  - constructor; [split; assumption | constructor].
  - rewrite (ltb_equiv (e + eps9) (fst seg) (e' + eps9) (fst seg'))
      by (split; intro; lra).
    destruct (ltb (e' + eps9) (fst seg')).
    + constructor; [split; assumption | ]. apply IH. split; assumption.
    + apply IH. simpl. split; [exact H3 | ].
      destruct (pymax_cases e (snd seg)) as [[G1 ->] | [G1 ->]],
        (pymax_cases e' (snd seg')) as [[G2 ->] | [G2 ->]]; lra.
Qed.

(** X15.  [normalize_cuts] does not depend on the order of its input:
    two lists holding the same pairs in different orders give results
    whose intervals have numerically equal endpoints, position by
    position. *)
Theorem normalize_cuts_order_independent cuts cuts' :
  Permutation cuts cuts' ->
  same_cuts (normalize_cuts cuts) (normalize_cuts cuts').
Proof.
  intro H. apply segments_permuted in H.
  assert (G : Forall2 same_cut (sort tuple_lt (segments cuts))
                               (sort tuple_lt (segments cuts'))).
  { apply (sort_permuted tuple_lt same_cut); try exact H.
    - intro x. split; reflexivity.
    - apply same_cut_trans.
    - apply tuple_lt_asym.
    - apply tuple_lt_between.
    - apply tuple_lt_neither.
    - intros x y z Hxy. apply tuple_lt_equiv; [exact Hxy | ].
      split; reflexivity. }
  rewrite !normalize_cuts_from.
  destruct G as [ | x x' r r' Hx Hr]; [constructor | ].
  apply (merge_from_same r r' Hr x x' Hx).
Qed.

Lemma normalize_cuts_order_independent_witness :
  Permutation [(19, 25); (10, 20); (40, 30)] [(10, 20); (19, 25); (40, 30)]
  /\ same_cuts (normalize_cuts [(19, 25); (10, 20); (40, 30)])
               (normalize_cuts [(10, 20); (19, 25); (40, 30)]).
Proof.
  assert (H : Permutation [(19, 25); (10, 20); (40, 30)]
                          [(10, 20); (19, 25); (40, 30)]).
  { apply perm_swap. }
  split; [exact H | ].
  exact (normalize_cuts_order_independent _ _ H).
Defined.

(** * The image list of [build_video_script] *)

Lemma py_index_valid (slide_images : list string) p :
  invalid_page slide_images p = false ->
  exists image, py_index slide_images (p - 1) = Some image
                /\ In image slide_images.
Proof.
  unfold invalid_page, py_index. intro H.
  apply orb_false_iff in H. destruct H as [H1 H2].
  apply Z.ltb_ge in H1. apply Z.ltb_ge in H2.
  assert (E : (p - 1 <? 0)%Z = false) by (apply Z.ltb_ge; lia).
  rewrite E.
  destruct (nth_error slide_images (Z.to_nat (p - 1))) as [image | ] eqn:G.
  - exists image. split; [reflexivity | ]. eapply nth_error_In, G.
  - apply nth_error_None in G. lia.
Qed.

Lemma change_lines_ok slide_images changes :
  exists lines, change_lines slide_images changes = Some lines
                /\ Forall (line_ok slide_images) lines.
Proof.
  induction changes as [ | [t0 p] rest IH]; simpl.
  - exists []. split; [reflexivity | constructor].
  - destruct IH as [more [E Hm]].
    destruct (invalid_page slide_images p) eqn:V.
    + exists more. split; assumption.
    + destruct (py_index_valid slide_images p V) as [image [-> Hin]].
      rewrite E. eexists. split; [reflexivity | ].
      apply Forall_app. split; [ | exact Hm].
      destruct rest as [ | [next_time q] r]; repeat constructor;
        try exact Hin.
      simpl. apply pymax_lub.
Qed.

Lemma final_lines_ok slide_images changes :
  exists lines, final_lines slide_images changes = Some lines
                /\ Forall (line_ok slide_images) lines
                /\ listed_duration lines = 0.
Proof.
  unfold final_lines. destruct changes as [ | c rest].
  - exists []. repeat split. constructor.
  - set (q := snd (last (c :: rest) (0, 0%Z))).
    destruct ((1 <=? q)%Z && (q <=? Z.of_nat (List.length slide_images))%Z)
      eqn:V.
    + assert (V' : invalid_page slide_images q = false).
      { apply andb_true_iff in V. destruct V as [V1 V2].
        apply Z.leb_le in V1. apply Z.leb_le in V2.
        unfold invalid_page. apply orb_false_iff.
        split; apply Z.ltb_ge; lia. }
      destruct (py_index_valid slide_images q V') as [image [-> Hin]].
      eexists. split; [reflexivity | ]. split; [ | reflexivity].
      repeat constructor. exact Hin.
    + exists []. repeat split. constructor.
Qed.

Lemma py_index_first_none (slide_images : list string) :
  py_index slide_images 0 = None <-> slide_images = [].
Proof.
  unfold py_index. simpl. destruct slide_images; simpl; split;
    intro H; try reflexivity; discriminate.
Qed.

(** X19.  Building the image list fails (with an index error) in one
    case only: there is no slide image at all and the first change is
    after time zero.  A page number out of range never makes it fail. *)
Theorem img_list_fails_only_without_images slide_images changes :
  img_list slide_images changes = None
  <-> slide_images = []
      /\ exists t0 p rest, changes = (t0, p) :: rest /\ 0 < t0.
Proof.
  unfold img_list.
  destruct (change_lines_ok slide_images changes) as [b [-> _]].
  destruct (final_lines_ok slide_images changes) as [c [-> _]].
  unfold first_lines. destruct changes as [ | [t0 p] rest].
  - split; [discriminate | ]. intros [_ [? [? [? [H _]]]]]. discriminate.
  - destruct (ltb 0 t0) eqn:E.
    + apply ltb_lt in E.
      destruct (py_index slide_images 0) as [image | ] eqn:G.
      * split; [discriminate | ]. intros [H _].
        apply py_index_first_none in H. congruence.
      * apply py_index_first_none in G. split; [ | reflexivity].
        intros _. split; [exact G | ]. exists t0, p, rest. auto.
    + apply ltb_ge in E. split; [discriminate | ].
      intros [_ [t1 [q [r [H Ht]]]]]. inversion H; subst. lra.
Qed.

(** X20.  Every line of the image list is well formed: an image line
    names an image of the given list, and no duration is negative. *)
Theorem img_list_lines_ok slide_images changes lines :
  img_list slide_images changes = Some lines ->
  Forall (line_ok slide_images) lines.
Proof.
  unfold img_list.
  destruct (change_lines_ok slide_images changes) as [b [-> Hb]].
  destruct (final_lines_ok slide_images changes) as [c [-> [Hc _]]].
  unfold first_lines. destruct changes as [ | [t0 p] rest].
  - intro H. inversion H; subst. simpl. apply Forall_app. auto.
  - destruct (ltb 0 t0) eqn:E.
    + destruct (py_index slide_images 0) as [image | ] eqn:G;
        [ | discriminate].
      intro H. inversion H; subst. apply ltb_lt in E.
      constructor; [ | constructor; [simpl; lra | apply Forall_app; auto]].
      unfold py_index in G. simpl in G.
      destruct slide_images; [discriminate | ].
      inversion G; subst. left. reflexivity.
    + intro H. inversion H; subst. simpl. apply Forall_app. auto.
Qed.

Lemma img_list_lines_ok_witness :
  img_list ["a.png"%string; "b.png"%string] [(5, 1%Z); (9, 7%Z); (12, 2%Z)]
  = Some [FileLine "a.png"; DurationLine 5;
          FileLine "a.png"; DurationLine 4;
          FileLine "b.png"; FileLine "b.png"]
  /\ Forall (line_ok ["a.png"%string; "b.png"%string])
       [FileLine "a.png"; DurationLine 5;
        FileLine "a.png"; DurationLine 4;
        FileLine "b.png"; FileLine "b.png"].
Proof.
  assert (H : img_list ["a.png"%string; "b.png"%string]
                [(5, 1%Z); (9, 7%Z); (12, 2%Z)]
    = Some [FileLine "a.png"; DurationLine 5;
            FileLine "a.png"; DurationLine 4;
            FileLine "b.png"; FileLine "b.png"]).
  { reflexivity. }
  split; [exact H | ].
  exact (img_list_lines_ok _ _ _ H).
Defined.









Lemma change_lines_all_invalid slide_images changes :
  Forall (fun c => invalid_page slide_images (snd c) = true) changes ->
  change_lines slide_images changes = Some [].
Proof.
  induction 1 as [ | [t0 p] rest H _ IH]; [reflexivity | ].
  simpl in *. rewrite H. exact IH.
Qed.

(** X23.  An event without a page number never shows a slide: its page
    becomes [-1], which [build_video_script] skips as invalid.  So for a
    timeline in which no event has a page, the image list holds nothing but
    the lines written before the loop (the first image until the first
    change). *)
Theorem pageless_timeline_shows_no_slide slide_images changes cuts L :
  Forall (fun ch => page ch = None) changes ->
  change_lines slide_images (adjust_timeline changes cuts L) = Some []
  /\ final_lines slide_images (adjust_timeline changes cuts L) = Some []
  /\ img_list slide_images (adjust_timeline changes cuts L)
     = first_lines slide_images (adjust_timeline changes cuts L).
Proof.
  intro H.
  assert (Hp : Forall (fun c : Q * Z => snd c = (-1)%Z)
                 (adjust_timeline changes cuts L)).
  { apply Forall_forall. intros x Hx. apply adjust_timeline_In in Hx.
    destruct Hx as [ch [Hin ->]]. rewrite Forall_forall in H.
    unfold map_event. simpl. rewrite (H ch Hin). reflexivity. }
  assert (E1 : change_lines slide_images (adjust_timeline changes cuts L)
               = Some []).
  { apply change_lines_all_invalid. eapply Forall_impl; [ | exact Hp].
    intros c Hc. rewrite Hc. reflexivity. }
  assert (E2 : final_lines slide_images (adjust_timeline changes cuts L)
               = Some []).
  { unfold final_lines.
    destruct (adjust_timeline changes cuts L) as [ | c r] eqn:G;
      [reflexivity | ].
    assert (Hl : snd (last (c :: r) (0, 0%Z)) = (-1)%Z).
    { rewrite Forall_forall in Hp. apply Hp.
      destruct (exists_last (l := c :: r)) as [l' [a Ea]]; [discriminate | ].
      rewrite Ea, last_last. apply in_app_iff. right. left. reflexivity. }
    rewrite Hl. reflexivity. }
  split; [exact E1 | split; [exact E2 | ]].
  unfold img_list. rewrite E1, E2.
  destruct (first_lines slide_images (adjust_timeline changes cuts L));
    [ | reflexivity].
  rewrite app_nil_r. reflexivity.
Qed.

Lemma pageless_timeline_shows_no_slide_witness :
  Forall (fun ch => page ch = None) [mkSlideChange 5 None; mkSlideChange 9 None]
  /\ img_list ["a.png"%string; "b.png"%string]
       (adjust_timeline [mkSlideChange 5 None; mkSlideChange 9 None] [] 100)
     = first_lines ["a.png"%string; "b.png"%string]
         (adjust_timeline [mkSlideChange 5 None; mkSlideChange 9 None] [] 100).
Proof.
  assert (H : Forall (fun ch => page ch = None)
                [mkSlideChange 5 None; mkSlideChange 9 None]).
  { repeat constructor. }
  split; [exact H | ].
  exact (proj2 (proj2 (pageless_timeline_shows_no_slide
                         ["a.png"%string; "b.png"%string] _ [] 100 H))).
Defined.

(** * Reading time labels and timelines *)

Lemma split_on_nonempty sep s : split_on sep s <> [].
Proof.
  destruct s as [ | c rest]; simpl; [discriminate | ].
  destruct (Ascii.eqb c sep); [discriminate | ].
  destruct (split_on sep rest); discriminate.
Qed.

(** Splitting gives one piece more than there are separators. *)
Lemma split_on_length sep s :
  List.length (split_on sep s) = S (count_char sep s).
Proof.
  induction s as [ | c rest IH]; simpl; [reflexivity | ].
  destruct (Ascii.eqb c sep); simpl; [rewrite IH; reflexivity | ].
  destruct (split_on sep rest) eqn:E; simpl in *; [discriminate | exact IH].
Qed.



Section ParseFacts.
Variable float_of_str : string -> option Q.
Variable int_of_str : string -> option Z.

Lemma float_of_piece_raises s e :
  float_of_piece float_of_str s = Raise e -> e = ValueError.
Proof.
  unfold float_of_piece. destruct (float_of_str s); intro H;
    [discriminate | congruence].
Qed.

Lemma parse_pieces_raises parts e :
  parse_pieces float_of_str parts = Raise e -> e = ValueError.
Proof.
  destruct parts as [ | p0 [ | p1 [ | p2 [ | p3 r]]]]; simpl;
    try congruence.
  - apply float_of_piece_raises.
  - destruct (float_of_piece float_of_str p0) eqn:E0;
      [ | intro H; inversion H; subst; eapply float_of_piece_raises, E0].
    destruct (float_of_piece float_of_str p1) eqn:E1; [discriminate | ].
    intro H; inversion H; subst. eapply float_of_piece_raises, E1.
  - destruct (float_of_piece float_of_str p0) eqn:E0;
      [ | intro H; inversion H; subst; eapply float_of_piece_raises, E0].
    destruct (float_of_piece float_of_str p1) eqn:E1;
      [ | intro H; inversion H; subst; eapply float_of_piece_raises, E1].
    destruct (float_of_piece float_of_str p2) eqn:E2; [discriminate | ].
    intro H; inversion H; subst. eapply float_of_piece_raises, E2.
Qed.

(** X24.  A label string with three or more colons is rejected with a
    [ValueError], whatever its fields; and on a string [parse_time_label]
    raises nothing but [ValueError]. *)
Theorem parse_time_label_rejects_long_labels s :
  ((3 <= count_char colon s)%nat ->
   parse_time_label float_of_str (JStr s) = Raise ValueError)
  /\ (forall e, parse_time_label float_of_str (JStr s) = Raise e ->
                e = ValueError).
Proof.
  split.
  - intro H. simpl. pose proof (split_on_length colon s) as L.
    destruct (split_on colon s) as [ | p0 [ | p1 [ | p2 [ | p3 r]]]];
      simpl in L; try lia. reflexivity.
  - intros e. simpl. apply parse_pieces_raises.
Qed.


(** What the first branch of [parse_timeline] returns: one event per
    label, with the label's time and the pages counted up from [i + 1]. *)
Lemma parse_labels_ok labels : forall i changes,
  parse_labels float_of_str i labels = Ok changes ->
  Forall2 (fun label ch => parse_time_label float_of_str label = Ok (t ch))
          labels changes
  /\ map page changes
     = map (fun k => Some (i + Z.of_nat k)%Z) (seq 1 (List.length labels)).
Proof.
  induction labels as [ | label rest IH]; intros i changes H; simpl in H.
  - inversion H; subst. split; [constructor | reflexivity].
  - destruct (parse_time_label float_of_str label) as [x | ] eqn:E;
      [ | discriminate].
    destruct (parse_labels float_of_str (i + 1) rest) as [more | ] eqn:G;
      [ | discriminate].
    inversion H; subst. destruct (IH _ _ G) as [F P].
    split; [constructor; [exact E | exact F] | ].
    simpl. f_equal.
    rewrite P, <- (seq_shift (List.length rest) 1), map_map.
    apply map_ext. intro k. f_equal. lia.
Qed.

Lemma parse_items_length items : forall changes,
  parse_items float_of_str int_of_str items = Ok changes ->
  List.length changes = List.length items.
Proof.
  induction items as [ | it rest IH]; intros changes H; simpl in H.
  - inversion H; subst. reflexivity.
  - destruct (parse_item float_of_str int_of_str it); [ | discriminate].
    destruct (parse_items float_of_str int_of_str rest) eqn:G;
      [ | discriminate].
    inversion H; subst. simpl. f_equal. apply IH. reflexivity.
Qed.

(** X26.  For a list of bare labels (a list whose first element is a
    number or a string) [parse_timeline] returns one event per label, in
    order, with the time read from the label and the pages [1, 2, ..., n]. *)
Theorem parse_timeline_pages_sequential first rest changes :
  is_label first = true ->
  parse_timeline float_of_str int_of_str (JList (first :: rest)) = Ok changes ->
  Forall2 (fun label ch => parse_time_label float_of_str label = Ok (t ch))
          (first :: rest) changes
  /\ map page changes
     = map (fun k => Some (Z.of_nat k))
           (seq 1 (List.length (first :: rest))).
Proof.
  intros Hl H. unfold parse_timeline in H. rewrite Hl in H.
  destruct (parse_labels_ok _ _ _ H) as [F P]. split; [exact F | ].
  rewrite P. apply map_ext. intro k. reflexivity.
Qed.

(** X27.  [parse_timeline] succeeds on lists only, and then returns
    exactly one event per element of the list. *)
Theorem parse_timeline_one_event_per_item obj changes :
  parse_timeline float_of_str int_of_str obj = Ok changes ->
  exists items, obj = JList items
                /\ List.length changes = List.length items.
Proof.
  destruct obj; simpl; try discriminate.
  intro H. exists items. split; [reflexivity | ].
  destruct items as [ | first rest].
  - apply (parse_items_length [] changes H).
  - destruct (is_label first).
    + destruct (parse_labels_ok _ _ _ H) as [F _].
      symmetry. apply (Forall2_length F).
    + apply (parse_items_length _ _ H).
Qed.
End ParseFacts.


Lemma parse_timeline_pages_sequential_witness :
  is_label (JInt 5) = true /\
  parse_timeline
    (fun s => if String.eqb s "1" then Some 1
              else if String.eqb s "30" then Some 30 else None)
    (fun _ => None)
    (JList (JInt 5 :: [JStr "1:30"]))
  = Ok [mkSlideChange (inject_Z 5) (Some 1%Z);
        mkSlideChange (1 * 60 + 30) (Some 2%Z)] /\
  map page [mkSlideChange (inject_Z 5) (Some 1%Z);
            mkSlideChange (1 * 60 + 30) (Some 2%Z)]
  = map (fun k => Some (Z.of_nat k))
        (seq 1 (List.length (JInt 5 :: [JStr "1:30"]))).
Proof.
  split; [reflexivity | ]. split; [reflexivity | ].
  exact (proj2 (parse_timeline_pages_sequential
                  (fun s => if String.eqb s "1" then Some 1
                            else if String.eqb s "30" then Some 30 else None)
                  (fun _ => None) (JInt 5) [JStr "1:30"]
                  [mkSlideChange (inject_Z 5) (Some 1%Z);
                   mkSlideChange (1 * 60 + 30) (Some 2%Z)]
                  eq_refl eq_refl)).
Defined.

Lemma parse_timeline_one_event_per_item_witness :
  parse_timeline (fun _ => None) (fun _ => None)
    (JList [JDict [("t"%string, JFloat 3); ("page"%string, JInt 2)];
            JDict [("t"%string, JInt 7)]])
  = Ok [mkSlideChange 3 (Some 2%Z); mkSlideChange (inject_Z 7) None] /\
  exists items,
    JList [JDict [("t"%string, JFloat 3); ("page"%string, JInt 2)];
           JDict [("t"%string, JInt 7)]] = JList items
    /\ List.length [mkSlideChange 3 (Some 2%Z);
                    mkSlideChange (inject_Z 7) None]
       = List.length items.
Proof.
  split; [reflexivity | ].
  exact (parse_timeline_one_event_per_item (fun _ => None) (fun _ => None)
           (JList [JDict [("t"%string, JFloat 3); ("page"%string, JInt 2)];
                   JDict [("t"%string, JInt 7)]])
           [mkSlideChange 3 (Some 2%Z); mkSlideChange (inject_Z 7) None]
           eq_refl).
Defined.

(** * From the timeline file to the image list *)





(** X29.  In a dry run [main] assumes one slide image fewer than the
    timeline file has entries: for a timeline of [n >= 1] bare labels the
    assumed list has [n - 1] images, and page [n], the page of the last
    label, is out of range for it. *)
Theorem dry_run_misses_last_page name first rest :
  List.length (dry_run_slides name (first :: rest)) = List.length rest
  /\ invalid_page (dry_run_slides name (first :: rest))
       (Z.of_nat (List.length (first :: rest))) = true.
Proof.
  assert (E : List.length (dry_run_slides name (first :: rest))
              = List.length rest).
  { unfold dry_run_slides. rewrite length_map, length_seq. simpl. lia. }
  split; [exact E | ].
  unfold invalid_page. rewrite E. apply orb_true_iff. right.
  apply Z.ltb_lt. simpl List.length. lia.
Qed.
